(** * any_iterator: a type-erased iterator built on the [te] erasure engine

    Shallow embedding of [example/any_iterator.hpp].  Template
    instantiation is modelled by functions into the [build] monad (a
    template either instantiates or the program is rejected with
    diagnostics); run-time behaviour is modelled by state passing over a
    [machine] holding the wrapper objects and the heap blocks of the
    storage policy. *)

From stdpp Require Import gmap strings list fin_maps.
From Stdlib Require Import ZArith.

Set Implicit Arguments.
Set Default Proof Using "Type".

Open Scope string_scope.
Open Scope list_scope.

(** ** Outcomes of template instantiation *)

Inductive build (A : Type) : Type :=
  | Built (a : A)
  | Rejected (diagnostics : list string).
Arguments Built {A} a.
Arguments Rejected {A} diagnostics.

#[global] Instance build_ret : MRet build := fun A a => Built a.
#[global] Instance build_bind : MBind build := fun A B f m =>
  match m with
  | Built a => f a
  | Rejected d => Rejected d
  end.

Definition diagnostics_of {A} (b : build A) : list string :=
  match b with
  | Built _ => []
  | Rejected d => d
  end.

Definition is_built {A} (b : build A) : bool :=
  match b with
  | Built _ => true
  | Rejected _ => false
  end.

(** ** C++ types *)

Inductive cxx_type : Type :=
  | Void
  | Bool
  | Int
  | Long                        (* std::ptrdiff_t *)
  | Class (name : string)
  | Pointer (t : cxx_type)
  | LRef (t : cxx_type)         (* t& *)
  | Const (t : cxx_type)        (* t const *)
  | ErasedT.                    (* te::T, the placeholder of the erased type *)

#[global] Instance cxx_type_eq_dec : EqDecision cxx_type.
Proof. solve_decision. Defined.

(** ** The parts of <iterator> and <type_traits> the header uses *)

Module std.

Inductive iterator_tag : Type :=
  | input_iterator_tag
  | output_iterator_tag
  | forward_iterator_tag
  | bidirectional_iterator_tag
  | random_access_iterator_tag.

#[global] Instance iterator_tag_eq_dec : EqDecision iterator_tag.
Proof. solve_decision. Defined.

(** The class each tag is declared to derive from. *)
Definition direct_base (t : iterator_tag) : option iterator_tag :=
  match t with
  | input_iterator_tag => None
  | output_iterator_tag => None
  | forward_iterator_tag => Some input_iterator_tag
  | bidirectional_iterator_tag => Some forward_iterator_tag
  | random_access_iterator_tag => Some bidirectional_iterator_tag
  end.

Fixpoint derives_within (depth : nat) (Base Derived : iterator_tag) : bool :=
  if decide (Base = Derived) then true
  else match depth with
       | O => false
       | S depth' =>
           match direct_base Derived with
           | Some parent => derives_within depth' Base parent
           | None => false
           end
       end.

(** [std::is_base_of<Base, Derived>] on the iterator tags: the
    inheritance chain has length three. *)
Definition is_base_of (Base Derived : iterator_tag) : bool :=
  derives_within 3 Base Derived.

(** [std::is_same<A, B>]. *)
Definition is_same (A B : cxx_type) : bool := bool_decide (A = B).

(** [std::iterator_traits<It>]. *)
Record iterator_traits : Type := {
  value_type : cxx_type;
  reference : cxx_type;
  iterator_category : iterator_tag;
  difference_type : cxx_type
}.

Definition ptrdiff_t : cxx_type := Long.

End std.

(** ** The erasure engine: operations, concepts and refinement *)

Module te.

(** [te::function<R (Args...)>]. *)
Record signature : Type := {
  sig_ret : cxx_type;
  sig_params : list cxx_type
}.

#[global] Instance signature_eq_dec : EqDecision signature.
Proof. solve_decision. Defined.

Definition function (ret : cxx_type) (params : list cxx_type) : signature :=
  {| sig_ret := ret; sig_params := params |}.

(** A named operation, ["name"_s = te::function<...>]. *)
Record operation : Type := {
  op_name : string;
  op_sig : signature
}.

#[global] Instance operation_eq_dec : EqDecision operation.
Proof. solve_decision. Defined.

(** The name of a concept: the struct template and its arguments. *)
Definition concept_name : Type := string * list cxx_type.

Record concept : Type := {
  c_name : concept_name;
  c_refines : list concept_name;   (* every base, transitively *)
  c_ops : list operation           (* merged, one entry per name *)
}.

Inductive clause : Type :=
  | Refine (base : build concept)
  | Named (o : operation).

Definition names (ops : list operation) : list string := op_name <$> ops.

Definition find_op (n : string) (ops : list operation) : option operation :=
  List.find (fun o => bool_decide (op_name o = n)) ops.

(** Modelled from the spec: [te::requires] is declared in te.hpp, which
    is not part of the sources.  Merging is a union keyed by name: an
    operation whose name is already present with the same signature is
    the same slot; a different signature under one name fails the
    build with a conflicting-signature diagnostic. *)
Definition merge_op (acc : list operation) (o : operation)
  : build (list operation) :=
  match find_op (op_name o) acc with
  | None => Built (acc ++ [o])
  | Some o' =>
      if decide (op_sig o' = op_sig o) then Built acc
      else Rejected ["conflicting operation signature: " +:+ op_name o]
  end.

Fixpoint merge_ops (acc : list operation) (ops : list operation)
  : build (list operation) :=
  match ops with
  | [] => Built acc
  | o :: rest => acc' ← merge_op acc o; merge_ops acc' rest
  end.

Definition merge_names (acc new : list concept_name) : list concept_name :=
  acc ++ List.filter (fun n => bool_decide (n ∉ acc)) new.

(** Modelled from the spec: [te::requires(bases..., operations...)]
    merges the operation sets of all bases, recursively, with the
    directly declared operations into one set deduplicated by name. *)
Fixpoint requires_from (refined : list concept_name) (ops : list operation)
    (clauses : list clause) : build (list concept_name * list operation) :=
  match clauses with
  | [] => Built (refined, ops)
  | Refine base :: rest =>
      b ← base;
      ops' ← merge_ops ops (c_ops b);
      requires_from (merge_names refined (c_name b :: c_refines b)) ops' rest
  | Named o :: rest =>
      ops' ← merge_op ops o;
      requires_from refined ops' rest
  end.

Definition requires (clauses : list clause)
  : build (list concept_name * list operation) :=
  requires_from [] [] clauses.

(** [struct Name : decltype(te::requires(...)) { };] *)
Definition struct_ (name : concept_name)
    (body : build (list concept_name * list operation)) : build concept :=
  b ← body;
  Built {| c_name := name; c_refines := b.1; c_ops := b.2 |}.

(** Modelled from the spec: the fundamental concepts of te.hpp, which
    is not part of the sources.  Each capability is one named
    operation over the erased type; ["equal"] is the name
    [operator==] of the wrapper looks up. *)
Definition CopyConstructible : build concept :=
  struct_ ("te::CopyConstructible", [])
    (requires [Named {| op_name := "copy-construct";
                          op_sig := function Void [Pointer Void; LRef (Const ErasedT)] |}]).

Definition CopyAssignable : build concept :=
  struct_ ("te::CopyAssignable", [])
    (requires [Named {| op_name := "copy-assign";
                          op_sig := function Void [LRef ErasedT; LRef (Const ErasedT)] |}]).

Definition Destructible : build concept :=
  struct_ ("te::Destructible", [])
    (requires [Named {| op_name := "destruct";
                          op_sig := function Void [LRef ErasedT] |}]).

Definition Swappable : build concept :=
  struct_ ("te::Swappable", [])
    (requires [Named {| op_name := "swap";
                          op_sig := function Void [LRef ErasedT; LRef ErasedT] |}]).

Definition EqualityComparable : build concept :=
  struct_ ("te::EqualityComparable", [])
    (requires [Named {| op_name := "equal";
                          op_sig := function Bool [LRef (Const ErasedT); LRef (Const ErasedT)] |}]).

Definition DefaultConstructible : build concept :=
  struct_ ("te::DefaultConstructible", [])
    (requires [Named {| op_name := "default-construct";
                          op_sig := function Void [Pointer Void] |}]).

End te.

(** ** The iterator concept family (any_iterator.hpp, lines 21-54) *)

Definition Iterator_name (Reference : cxx_type) : te.concept_name :=
  ("Iterator", [Reference]).
Definition InputIterator_name (Reference : cxx_type) : te.concept_name :=
  ("InputIterator", [Reference]).
Definition ForwardIterator_name (Reference : cxx_type) : te.concept_name :=
  ("ForwardIterator", [Reference]).
Definition BidirectionalIterator_name (Reference : cxx_type) : te.concept_name :=
  ("BidirectionalIterator", [Reference]).
Definition RandomAccessIterator_name (Reference Difference : cxx_type)
  : te.concept_name :=
  ("RandomAccessIterator", [Reference; Difference]).

Definition Iterator (Reference : cxx_type) : build te.concept :=
  te.struct_ (Iterator_name Reference) (te.requires [
    te.Refine te.CopyConstructible;
    te.Refine te.CopyAssignable;
    te.Refine te.Destructible;
    te.Refine te.Swappable;
    te.Named {| te.op_name := "increment";
                  te.op_sig := te.function Void [LRef ErasedT] |};
    te.Named {| te.op_name := "dereference";
                  te.op_sig := te.function Reference [LRef ErasedT] |}
  ]).

Definition InputIterator (Reference : cxx_type) : build te.concept :=
  te.struct_ (InputIterator_name Reference) (te.requires [
    te.Refine (Iterator Reference);
    te.Refine te.EqualityComparable
  ]).

Definition ForwardIterator (Reference : cxx_type) : build te.concept :=
  te.struct_ (ForwardIterator_name Reference) (te.requires [
    te.Refine (InputIterator Reference);
    te.Refine te.DefaultConstructible
  ]).

Definition BidirectionalIterator (Reference : cxx_type) : build te.concept :=
  te.struct_ (BidirectionalIterator_name Reference) (te.requires [
    te.Refine (ForwardIterator Reference);
    te.Named {| te.op_name := "decrement";
                  te.op_sig := te.function Void [LRef ErasedT] |}
  ]).

Definition RandomAccessIterator (Reference Difference : cxx_type)
  : build te.concept :=
  te.struct_ (RandomAccessIterator_name Reference Difference) (te.requires [
    te.Refine (BidirectionalIterator Reference);
    te.Named {| te.op_name := "advance";
                  te.op_sig := te.function Void [LRef ErasedT; Difference] |};
    te.Named {| te.op_name := "distance";
                  te.op_sig := te.function Difference
                                 [LRef (Const ErasedT); LRef (Const ErasedT)] |}
  ]).


(** ** Run-time model: erased values, vtables, storage and the wrapper *)

(** Outcomes of a run: a result, a failed [assert], or undefined
    behaviour. *)
Inductive outcome (A : Type) : Type :=
  | Ok (a : A)
  | AssertionFailed
  | Undefined.
Arguments Ok {A} a.
Arguments AssertionFailed {A}.
Arguments Undefined {A}.

Section Erasure.

Variables (obj ref : Type).

(** A concrete iterator type [T]: its identity, its
    [std::iterator_traits], its footprint, and the native operators the
    concept maps call, acting on the object representation.  For a type
    that lacks an operator the field is never consulted: the map that
    would use it is disabled by [when].

    The language defines [++self], [*self] and [--self] on part of the
    positions only: an iterator past the end can be neither
    dereferenced nor incremented, one at the beginning cannot be
    decremented.  The three predicates give the positions where each
    operator is defined; the operator fields give its result there, and
    mean nothing elsewhere. *)
Record cxx_iterator : Type := {
  type_of : cxx_type;
  traits : std.iterator_traits;
  size_of : N;
  align_of : N;
  nothrow_movable : bool;
  incrementable : obj -> bool;             (* ++self is defined *)
  dereferenceable : obj -> bool;           (* *self is defined *)
  decrementable : obj -> bool;             (* --self is defined *)
  pre_increment : obj -> obj;              (* ++self *)
  indirection : obj -> ref * obj;          (* *self, on a non-const self *)
  pre_decrement : obj -> obj;              (* --self *)
  equal_to : obj -> obj -> bool;           (* a == b *)
  std_advance : obj -> Z -> obj;           (* std::advance(self, diff) *)
  std_distance : obj -> obj -> Z           (* std::distance(first, last) *)
}.

(** An erased callable, by call shape. *)
Inductive callable : Type :=
  | Fn_void_T (f : obj -> obj)             (* void (T&) *)
  | Fn_ref_T (f : obj -> ref * obj)        (* Reference (T&) *)
  | Fn_bool_TT (f : obj -> obj -> bool)    (* bool (T const&, T const&) *)
  | Fn_void_T_diff (f : obj -> Z -> obj)   (* void (T&, Difference) *)
  | Fn_diff_TT (f : obj -> obj -> Z)       (* Difference (T const&, T const&) *)
  | Fn_special.                            (* lifecycle entry used by the engine *)

Definition concept_map : Type := list (string * callable).

Fixpoint binding (name : string) (m : concept_map) : option callable :=
  match m with
  | [] => None
  | (n, c) :: rest => if decide (n = name) then Some c else binding name rest
  end.

(** A stored value together with the type it was constructed as. *)
Record object : Type := {
  dynamic_type : cxx_type;
  representation : obj
}.

Inductive storage : Type :=
  | Inline (o : object)
  | Remote (block : positive).

Record vtable : Type := {
  vt_type : cxx_type;
  vt_slots : concept_map
}.

(** [te::poly<Concept, Storage, VTable>]. *)
Record poly : Type := {
  storage_ : storage;
  vptr : vtable
}.

Record any_iterator : Type := {
  poly_ : poly
}.

Record machine : Type := {
  objects : gmap positive any_iterator;   (* wrapper objects, by address *)
  heap : gmap positive object             (* blocks owned by remote storage *)
}.

Definition exec (A : Type) : Type := machine -> outcome (A * machine).

#[global] Instance exec_ret : MRet exec := fun A a m => Ok (a, m).
#[global] Instance exec_bind : MBind exec := fun A B f c m =>
  match c m with
  | Ok (a, m') => f a m'
  | AssertionFailed => AssertionFailed
  | Undefined => Undefined
  end.

Definition undefined {A} : exec A := fun _ => Undefined.

(** [assert(c)] of <cassert>: compiled out under [NDEBUG]. *)
Definition assert (NDEBUG : bool) (c : bool) : exec unit := fun m =>
  if NDEBUG then Ok (tt, m)
  else if c then Ok (tt, m) else AssertionFailed.

Definition object_at (this : positive) : exec any_iterator := fun m =>
  match objects m !! this with
  | Some w => Ok (w, m)
  | None => Undefined
  end.

Definition set_object (this : positive) (w : any_iterator) : exec unit := fun m =>
  Ok (tt, {| objects := <[this := w]> (objects m); heap := heap m |}).

(** The [void*] the engine passes to a vtable entry: into the inline
    buffer of the wrapper at [owner], or to a heap block. *)
Inductive void_ptr : Type :=
  | InObject (owner : positive)
  | InHeap (block : positive).

Definition load (q : void_ptr) : exec object := fun m =>
  match q with
  | InObject owner =>
      match objects m !! owner with
      | Some {| poly_ := {| storage_ := Inline o |} |} => Ok (o, m)
      | _ => Undefined
      end
  | InHeap block =>
      match heap m !! block with
      | Some o => Ok (o, m)
      | None => Undefined
      end
  end.

Definition store (q : void_ptr) (o : object) : exec unit := fun m =>
  match q with
  | InObject owner =>
      match objects m !! owner with
      | Some {| poly_ := {| storage_ := Inline _; vptr := vt |} |} =>
          Ok (tt, {| objects := <[owner := {| poly_ := {| storage_ := Inline o;
                                                           vptr := vt |} |}]> (objects m);
                     heap := heap m |})
      | _ => Undefined
      end
  | InHeap block =>
      match heap m !! block with
      | Some _ => Ok (tt, {| objects := objects m; heap := <[block := o]> (heap m) |})
      | None => Undefined
      end
  end.

(** *** [te::poly]: [get] and [virtual_] *)

(** Modelled from the spec: [poly::get()] of te.hpp is the uniform
    "address of the held value", whichever the placement. *)
Definition get (this : positive) (p : poly) : void_ptr :=
  match storage_ p with
  | Inline _ => InObject this
  | Remote block => InHeap block
  end.

(** A vtable entry: the thunk instantiated for one concrete type and one
    operation name.  Two entries are the same function pointer when they
    are the thunk of the same type for the same name. *)
Record fnptr : Type := {
  fn_type : cxx_type;
  fn_name : string;
  fn_code : callable
}.

Definition fnptr_eqb (f g : fnptr) : bool :=
  bool_decide (fn_type f = fn_type g) && bool_decide (fn_name f = fn_name g).

(** Modelled from the spec: [poly::virtual_(name)] of te.hpp returns the
    vtable entry of the operation; the name is checked against the
    concept when the call is instantiated ([has_operation]). *)
Definition virtual_ (name : string) (p : poly) : exec fnptr :=
  match binding name (vt_slots (vptr p)) with
  | Some c => mret {| fn_type := vt_type (vptr p); fn_name := name; fn_code := c |}
  | None => undefined
  end.

Definition has_operation (C : te.concept) (name : string) : build unit :=
  if decide (name ∈ te.names (te.c_ops C)) then Built tt
  else Rejected ["no operation named '" +:+ name +:+ "' in the concept"].

(** The thunk reinterprets the erased address as a [T]: undefined when
    the object there was not constructed as a [T]. *)
Definition as_T (fn : fnptr) (o : object) : exec obj :=
  if decide (dynamic_type o = fn_type fn) then mret (representation o)
  else undefined.

Definition retype (o : object) (x : obj) : object :=
  {| dynamic_type := dynamic_type o; representation := x |}.

Definition call_void_T (fn : fnptr) (self : void_ptr) : exec unit :=
  match fn_code fn with
  | Fn_void_T f =>
      o ← load self; x ← as_T fn o; store self (retype o (f x))
  | _ => undefined
  end.

Definition call_ref_T (fn : fnptr) (self : void_ptr) : exec ref :=
  match fn_code fn with
  | Fn_ref_T f =>
      o ← load self; x ← as_T fn o;
      store self (retype o (f x).2);; mret (f x).1
  | _ => undefined
  end.

Definition call_bool_TT (fn : fnptr) (a b : void_ptr) : exec bool :=
  match fn_code fn with
  | Fn_bool_TT f =>
      oa ← load a; x ← as_T fn oa;
      ob ← load b; y ← as_T fn ob;
      mret (f x y)
  | _ => undefined
  end.

(** *** Default concept maps (any_iterator.hpp, lines 57-96) *)

Definition when (Category : std.iterator_tag) (T : cxx_iterator) : bool :=
  std.is_base_of Category (std.iterator_category (traits T)).

Definition reference_t (T : cxx_iterator) : cxx_type :=
  std.reference (traits T).

Definition difference_t (T : cxx_iterator) : cxx_type :=
  std.difference_type (traits T).

(** Each specialization is tried against the requested pair (concept,
    type): [None] when it does not match or is disabled. *)
Definition default_concept_map_Iterator (C : te.concept_name) (T : cxx_iterator)
  : option concept_map :=
  if decide (C = Iterator_name (reference_t T)) then
    Some [ ("increment", Fn_void_T (fun self => pre_increment T self));
           ("dereference", Fn_ref_T (fun self => indirection T self)) ]
  else None.

Definition default_concept_map_BidirectionalIterator
    (C : te.concept_name) (T : cxx_iterator) : option concept_map :=
  if decide (C = BidirectionalIterator_name (reference_t T)) then
    if when std.bidirectional_iterator_tag T then
      Some [ ("decrement", Fn_void_T (fun self => pre_decrement T self)) ]
    else None
  else None.

Definition default_concept_map_RandomAccessIterator
    (C : te.concept_name) (T : cxx_iterator) : option concept_map :=
  if decide (C = RandomAccessIterator_name (reference_t T) (difference_t T)) then
    if when std.random_access_iterator_tag T then
      Some [ ("advance", Fn_void_T_diff (fun self diff => std_advance T self diff));
             ("distance", Fn_diff_TT (fun first last => std_distance T first last)) ]
    else None
  else None.

(** Modelled from the spec: the default maps te.hpp itself provides for
    its fundamental concepts, bound to the native capabilities of [T];
    the primary template binds nothing. *)
Definition te_default_concept_map (C : te.concept_name) (T : cxx_iterator)
  : concept_map :=
  if decide (C = ("te::EqualityComparable", [])) then
    [ ("equal", Fn_bool_TT (fun a b => equal_to T a b)) ]
  else if decide (C = ("te::CopyConstructible", [])) then [ ("copy-construct", Fn_special) ]
  else if decide (C = ("te::CopyAssignable", [])) then [ ("copy-assign", Fn_special) ]
  else if decide (C = ("te::Destructible", [])) then [ ("destruct", Fn_special) ]
  else if decide (C = ("te::Swappable", [])) then [ ("swap", Fn_special) ]
  else if decide (C = ("te::DefaultConstructible", [])) then [ ("default-construct", Fn_special) ]
  else [].

Definition default_concept_map (C : te.concept_name) (T : cxx_iterator)
  : concept_map :=
  match default_concept_map_Iterator C T with
  | Some m => m
  | None =>
      match default_concept_map_BidirectionalIterator C T with
      | Some m => m
      | None =>
          match default_concept_map_RandomAccessIterator C T with
          | Some m => m
          | None => te_default_concept_map C T
          end
      end
  end.

(** *** Concept map resolution and the vtable *)

(** Modelled from the spec: the engine merges the default maps of the
    concept and of every concept it refines, then checks totality; an
    unbound operation fails the build with a diagnostic naming it. *)
Definition merged_concept_map (C : te.concept) (T : cxx_iterator) : concept_map :=
  flat_map (fun n => default_concept_map n T) (te.c_name C :: te.c_refines C).

Fixpoint bind_all (ops : list string) (m : concept_map) : build concept_map :=
  match ops with
  | [] => Built []
  | n :: rest =>
      match binding n m, bind_all rest m with
      | Some c, Built slots => Built ((n, c) :: slots)
      | Some _, Rejected d => Rejected d
      | None, rest' =>
          Rejected (("concept map is missing the operation '" +:+ n +:+ "'")
                      :: diagnostics_of rest')
      end
  end.

Definition complete_concept_map (C : te.concept) (T : cxx_iterator)
  : build concept_map :=
  bind_all (te.names (te.c_ops C)) (merged_concept_map C T).

Definition make_vtable (C : te.concept) (T : cxx_iterator) : build vtable :=
  slots ← complete_concept_map C T;
  Built {| vt_type := type_of T; vt_slots := slots |}.

(** *** Storage *)

(** Alignment of the inline buffer (platform-defined). *)
Variable buffer_alignment : N.

(** Modelled from the spec: [te::local_storage<Size>] of te.hpp places
    the value inline when its footprint fits the buffer and it can be
    moved without throwing, and in an owned heap block otherwise. *)
Definition fits_inline (Size : N) (T : cxx_iterator) : bool :=
  (size_of T <=? Size)%N
  && (0 <? align_of T)%N && (buffer_alignment mod align_of T =? 0)%N
  && nothrow_movable T.

Definition local_storage (Size : N) (T : cxx_iterator) (x : obj) : exec storage :=
  fun m =>
    let o := {| dynamic_type := type_of T; representation := x |} in
    if fits_inline Size T then Ok (Inline o, m)
    else
      let block := fresh (dom (heap m)) in
      Ok (Remote block, {| objects := objects m; heap := <[block := o]> (heap m) |}).

(** Modelled from the spec: constructing a [te::poly] from a value of
    type [T] resolves the concept map, builds the vtable and places the
    value. *)
Definition poly_ctor (Concept : build te.concept) (Size : N) (T : cxx_iterator)
  : build (obj -> exec poly) :=
  C ← Concept;
  vt ← make_vtable C T;
  Built (fun x => s ← local_storage Size T x;
                  mret {| storage_ := s; vptr := vt |}).

(** Modelled from the spec: swapping two [te::poly] exchanges storage
    and vtable reference. *)
Definition poly_swap (a b : positive) : exec unit :=
  wa ← object_at a;
  wb ← object_at b;
  set_object a {| poly_ := poly_ wb |};;
  set_object b {| poly_ := poly_ wa |}.

(** ** The wrapper (any_iterator.hpp, lines 98-215) *)

Section any_iterator.

(** [std::is_convertible<From, To>], a trait of the language. *)
Variable is_convertible : cxx_type -> cxx_type -> bool.

(** Whether the translation unit is compiled with [NDEBUG]. *)
Variable NDEBUG : bool.

(** The template parameters. *)
Variables (Value : cxx_type) (Category : std.iterator_tag)
          (Reference Difference : cxx_type).

Definition iterator_category : std.iterator_tag := Category.
Definition value_type : cxx_type := Value.
Definition reference : cxx_type := Reference.
Definition pointer : cxx_type := Pointer value_type.
Definition difference_type : cxx_type := Difference.

(** Only the four specializations exist; the primary template is
    declared and never defined. *)
Definition iterator_category_to_concept (Category : std.iterator_tag)
    (Reference Difference : cxx_type) : build te.concept :=
  match Category with
  | std.input_iterator_tag => InputIterator Reference
  | std.forward_iterator_tag => ForwardIterator Reference
  | std.bidirectional_iterator_tag => BidirectionalIterator Reference
  | std.random_access_iterator_tag => RandomAccessIterator Reference Difference
  | std.output_iterator_tag =>
      Rejected ["incomplete type 'detail::iterator_category_to_concept'"]
  end.

Definition Concept : build te.concept :=
  iterator_category_to_concept iterator_category reference difference_type.

Definition Storage : cxx_iterator -> obj -> exec storage := local_storage 8.

Definition static_assert (condition : bool) (message : string) : list string :=
  if condition then [] else [message].

Definition value_type_message : string :=
  "The 'value_type' of the erased iterator must be convertible to that of the 'any_iterator'".
Definition reference_message : string :=
  "The 'reference' of the erased iterator must be convertible to that of the 'any_iterator'".
Definition iterator_category_message : string :=
  "The 'iterator_category' of the erased iterator must be at least as powerful as that of the 'any_iterator'".
Definition difference_type_message : string :=
  "The 'difference_type' of the erased iterator must match that of the 'any_iterator'".

(** The static assertions of the converting constructor, in order; every
    failing one contributes its message. *)
Definition ctor_static_asserts (It : cxx_iterator) : list string :=
  let Source_value_type := std.value_type (traits It) in
  let Source_reference := std.reference (traits It) in
  let Source_category := std.iterator_category (traits It) in
  let Source_difference_type := std.difference_type (traits It) in
  static_assert (is_convertible Source_value_type value_type) value_type_message
  ++ static_assert (is_convertible Source_reference reference) reference_message
  ++ static_assert (std.is_base_of iterator_category Source_category)
       iterator_category_message
  ++ static_assert (std.is_same difference_type Source_difference_type)
       difference_type_message.

(** [template <typename It> explicit any_iterator(It it)], instantiated
    for [It]: the member initializer [poly_{std::move(it)}], then the body. *)
Definition any_iterator_ctor (It : cxx_iterator)
  : build (positive -> obj -> exec unit) :=
  let init := poly_ctor Concept 8 It in
  match init, ctor_static_asserts It with
  | Built make_poly, [] =>
      Built (fun this it => p ← make_poly it; set_object this {| poly_ := p |})
  | _, failed => Rejected (diagnostics_of init ++ failed)
  end.

Definition swap (this other : positive) : exec unit :=
  poly_swap this other.

(** [friend void swap(any_iterator& a, any_iterator& b)]. *)
Definition friend_swap (a b : positive) : exec unit := swap a b.

(** [any_iterator& operator++()]: the result is the address of [*this]. *)
Definition operator_inc : build (positive -> exec positive) :=
  C ← Concept;
  has_operation C "increment";;
  Built (fun this =>
           w ← object_at this;
           fn ← virtual_ "increment" (poly_ w);
           call_void_T fn (get this (poly_ w));;
           mret this).

(** [operator--] is declared only when the [enable_if] condition holds. *)
Definition operator_dec : build (positive -> exec positive) :=
  if std.is_base_of std.bidirectional_iterator_tag iterator_category then
    C ← Concept;
    has_operation C "decrement";;
    Built (fun this =>
             w ← object_at this;
             fn ← virtual_ "decrement" (poly_ w);
             call_void_T fn (get this (poly_ w));;
             mret this)
  else Rejected ["no match for 'operator--' (operand type is 'any_iterator')"].

Definition operator_star : build (positive -> exec ref) :=
  C ← Concept;
  has_operation C "dereference";;
  Built (fun this =>
           w ← object_at this;
           fn ← virtual_ "dereference" (poly_ w);
           call_ref_T fn (get this (poly_ w))).

Definition operator_eq : build (positive -> positive -> exec bool) :=
  C ← Concept;
  has_operation C "equal";;
  Built (fun a b =>
           wa ← object_at a;
           wb ← object_at b;
           fa ← virtual_ "equal" (poly_ wa);
           fb ← virtual_ "equal" (poly_ wb);
           assert NDEBUG (fnptr_eqb fa fb);;
           call_bool_TT fa (get a (poly_ wa)) (get b (poly_ wb))).

Definition operator_ne : build (positive -> positive -> exec bool) :=
  eq ← operator_eq;
  Built (fun a b => r ← eq a b; mret (negb r)).

(** *** Vocabulary of the statements *)

(** The native iterator, used directly: each operator yields a result
    only where the language defines it. *)
Definition native_increment (It : cxx_iterator) (x : obj) : option obj :=
  if incrementable It x then Some (pre_increment It x) else None.

Definition native_decrement (It : cxx_iterator) (x : obj) : option obj :=
  if decrementable It x then Some (pre_decrement It x) else None.

Definition native_dereference (It : cxx_iterator) (x : obj) : option ref :=
  if dereferenceable It x then Some (indirection It x).1 else None.

(** [++it] applied [n] times to the native iterator. *)
Fixpoint native_advance (It : cxx_iterator) (n : nat) (x : obj) : option obj :=
  match n with
  | O => Some x
  | S k =>
      match native_increment It x with
      | Some y => native_advance It k y
      | None => None
      end
  end.

(** Incrementing the native iterator [n] times and dereferencing it. *)
Definition native_nth (It : cxx_iterator) (n : nat) (x : obj) : option ref :=
  match native_advance It n x with
  | Some y => native_dereference It y
  | None => None
  end.

(** [++it] applied [n] times, each time on the reference the previous
    one returned. *)
Fixpoint repeat_inc (inc : positive -> exec positive) (n : nat) (this : positive)
  : exec positive :=
  match n with
  | O => mret this
  | S k => r ← inc this; repeat_inc inc k r
  end.

(** What a wrapper currently holds: its vtable and the stored value,
    read through [get] whichever the placement. *)
Definition held (m : machine) (this : positive) : option (vtable * object) :=
  match objects m !! this with
  | Some w =>
      match load (get this (poly_ w)) m with
      | Ok (o, _) => Some (vptr (poly_ w), o)
      | _ => None
      end
  | None => None
  end.

(** The wrapper at [this] was erased from the value [x] of type [It]. *)
Definition wraps (m : machine) (this : positive) (It : cxx_iterator) (x : obj)
  : Prop :=
  exists C vt,
    Concept = Built C /\ make_vtable C It = Built vt /\
    held m this = Some (vt, {| dynamic_type := type_of It; representation := x |}).

(** Where the value of the wrapper at [this] lives. *)
Definition placement (m : machine) (this : positive) : option storage :=
  w ← objects m !! this; Some (storage_ (poly_ w)).

Definition same_place (s s' : storage) : Prop :=
  match s, s' with
  | Inline _, Inline _ => True
  | Remote p, Remote p' => p = p'
  | _, _ => False
  end.

Definition result_of {A} (r : outcome (A * machine)) : outcome A :=
  match r with
  | Ok (a, _) => Ok a
  | AssertionFailed => AssertionFailed
  | Undefined => Undefined
  end.

Definition state_after {A} (r : outcome (A * machine)) : option machine :=
  match r with
  | Ok (_, m) => Some m
  | _ => None
  end.

(** The only change from [m] to [m'] is the value stored by the wrapper
    at [this]: every other wrapper object is untouched, the wrapper
    keeps its vtable and the place of its value, and no heap block
    other than its own is written, allocated or freed. *)
Definition only_value_changed (m m' : machine) (this : positive) : Prop :=
  (forall c, c <> this -> objects m' !! c = objects m !! c) /\
  (exists w w',
      objects m !! this = Some w /\ objects m' !! this = Some w' /\
      vptr (poly_ w') = vptr (poly_ w) /\
      same_place (storage_ (poly_ w)) (storage_ (poly_ w')) /\
      (forall b, storage_ (poly_ w) <> Remote b -> heap m' !! b = heap m !! b)) /\
  dom (heap m') = dom (heap m).

Definition mentions (property message : string) : bool :=
  bool_decide (is_Some (String.index 0 property message)).

End any_iterator.

End Erasure.

(** ** Concrete iterator types used to exercise the model

    The object representation is a position in a fixed sequence [xs];
    dereferencing reads the element there.  Position [length xs] is
    the end: it can be reached, and neither dereferenced nor
    incremented. *)

Definition element (xs : list Z) (i : nat) : Z := nth i xs 0%Z.

(** [int*] into an array holding [xs]. *)
Definition int_pointer (xs : list Z) : cxx_iterator nat Z := {|
  type_of := Pointer Int;
  traits := {| std.value_type := Int; std.reference := LRef Int;
               std.iterator_category := std.random_access_iterator_tag;
               std.difference_type := std.ptrdiff_t |};
  size_of := 8;
  align_of := 8;
  nothrow_movable := true;
  incrementable := fun i => Nat.ltb i (length xs);
  dereferenceable := fun i => Nat.ltb i (length xs);
  decrementable := fun i => Nat.ltb 0 i;
  pre_increment := S;
  indirection := fun i => (element xs i, i);
  pre_decrement := Nat.pred;
  equal_to := Nat.eqb;
  std_advance := fun i d => Z.to_nat (Z.of_nat i + d);
  std_distance := fun i j => (Z.of_nat j - Z.of_nat i)%Z
|}.

(** [std::forward_list<int>::iterator]: forward only, pointer-sized. *)
Definition forward_list_iterator (xs : list Z) : cxx_iterator nat Z := {|
  type_of := Class "std::forward_list<int>::iterator";
  traits := {| std.value_type := Int; std.reference := LRef Int;
               std.iterator_category := std.forward_iterator_tag;
               std.difference_type := std.ptrdiff_t |};
  size_of := 8;
  align_of := 8;
  nothrow_movable := true;
  incrementable := fun i => Nat.ltb i (length xs);
  dereferenceable := fun i => Nat.ltb i (length xs);
  decrementable := fun _ => false;
  pre_increment := S;
  indirection := fun i => (element xs i, i);
  pre_decrement := fun i => i;
  equal_to := Nat.eqb;
  std_advance := fun i d => Z.to_nat (Z.of_nat i + d);
  std_distance := fun i j => (Z.of_nat j - Z.of_nat i)%Z
|}.

(** A forward iterator struct of 32 bytes: larger than the inline
    buffer of the wrapper. *)
Definition oversized_iterator (xs : list Z) : cxx_iterator nat Z := {|
  type_of := Class "oversized_iterator";
  traits := {| std.value_type := Int; std.reference := LRef Int;
               std.iterator_category := std.forward_iterator_tag;
               std.difference_type := std.ptrdiff_t |};
  size_of := 32;
  align_of := 8;
  nothrow_movable := true;
  incrementable := fun i => Nat.ltb i (length xs);
  dereferenceable := fun i => Nat.ltb i (length xs);
  decrementable := fun _ => false;
  pre_increment := S;
  indirection := fun i => (element xs i, i);
  pre_decrement := fun i => i;
  equal_to := Nat.eqb;
  std_advance := fun i d => Z.to_nat (Z.of_nat i + d);
  std_distance := fun i j => (Z.of_nat j - Z.of_nat i)%Z
|}.

(** A conversion table large enough for the examples: identity, and
    binding an lvalue to a reference to const. *)
Definition convertible_demo (From To : cxx_type) : bool :=
  bool_decide (From = To)
  || match From, To with
     | LRef t, LRef (Const u) => bool_decide (t = u)
     | _, _ => false
     end.

Definition empty_machine : machine nat Z := {| objects := ∅; heap := ∅ |}.

(** Running an instantiated constructor on a machine. *)
Definition run_ctor (ctor : build (positive -> nat -> exec nat Z unit))
    (this : positive) (x : nat) (m : machine nat Z) : machine nat Z :=
  match ctor with
  | Built mk =>
      match mk this x m with
      | Ok (_, m') => m'
      | _ => m
      end
  | Rejected _ => m
  end.

(** [any_iterator<int, std::forward_iterator_tag>] constructed from [It]. *)
Definition forward_any_iterator (It : cxx_iterator nat Z)
  : build (positive -> nat -> exec nat Z unit) :=
  any_iterator_ctor 16 convertible_demo Int std.forward_iterator_tag
    (LRef Int) std.ptrdiff_t It.

Definition numbers : list Z := [10; 20; 30]%Z.

(** Three forward-level wrappers: at 1 a list iterator on the first
    element (inline), at 2 an oversized iterator on the second (heap),
    at 3 a list iterator on the second (inline). *)
Definition demo_machine : machine nat Z :=
  run_ctor (forward_any_iterator (forward_list_iterator numbers)) 3 1
    (run_ctor (forward_any_iterator (oversized_iterator numbers)) 2 1
       (run_ctor (forward_any_iterator (forward_list_iterator numbers)) 1 0
          empty_machine)).

(** [any_iterator<int, std::bidirectional_iterator_tag>] constructed
    from [It]. *)
Definition bidirectional_any_iterator (It : cxx_iterator nat Z)
  : build (positive -> nat -> exec nat Z unit) :=
  any_iterator_ctor 16 convertible_demo Int std.bidirectional_iterator_tag
    (LRef Int) std.ptrdiff_t It.

(** One bidirectional-level wrapper, of a pointer to the third element. *)
Definition pointer_machine : machine nat Z :=
  run_ctor (bidirectional_any_iterator (int_pointer numbers)) 1 2 empty_machine.

(** * Properties *)

Unset Implicit Arguments.

Section Properties.

Context {obj ref : Type}.

Implicit Types (It T : cxx_iterator obj ref) (m : machine obj ref).
Implicit Types (this a b : positive) (R D : cxx_type).
Implicit Types (Category : std.iterator_tag).

(** ** Lists *)

Lemma subseteq_app_l_eq {A} (l k e : list A) : l = k ++ e -> k ⊆ l.
Proof. intros -> x Hx. apply elem_of_app. by left. Qed.

Lemma subseteq_app_r_eq {A} (l k e : list A) : l = k ++ e -> e ⊆ l.
Proof. intros -> x Hx. apply elem_of_app. by right. Qed.

(** ** The build monad *)

Lemma build_bind_Built {A B} (f : A -> build B) (x : build A) (y : B) :
  x ≫= f = Built y -> exists v, x = Built v /\ f v = Built y.
Proof. destruct x as [v|d]; [eauto | discriminate]. Qed.

(** ** Concept maps and vtables *)

Lemma bind_all_binding (ops : list string) (cm slots : concept_map obj ref) n :
  bind_all ops cm = Built slots -> n ∈ ops ->
  binding n slots = binding n cm /\ is_Some (binding n cm).
Proof.
  revert slots. induction ops as [|n0 rest IH]; intros slots Hb Hin.
  - by apply elem_of_nil in Hin.
  - simpl in Hb. destruct (binding n0 cm) as [c|] eqn:Hc; [|discriminate].
    destruct (bind_all rest cm) as [slots'|] eqn:Hr; [|discriminate].
    injection Hb as <-. simpl. destruct (decide (n0 = n)) as [->|Hne].
    + rewrite Hc. eauto.
    + apply elem_of_cons in Hin as [->|Hin]; [done|]. by apply IH.
Qed.

Lemma make_vtable_binding (C : te.concept) It vt n :
  make_vtable C It = Built vt -> n ∈ te.names (te.c_ops C) ->
  vt_type vt = type_of It /\
  binding n (vt_slots vt) = binding n (merged_concept_map C It) /\
  is_Some (binding n (merged_concept_map C It)).
Proof.
  unfold make_vtable, complete_concept_map. intros Hb Hin.
  apply build_bind_Built in Hb as (slots & Hs & Hv). injection Hv as <-.
  split; [done|]. by apply bind_all_binding with (ops := te.names (te.c_ops C)).
Qed.

Lemma binding_app (l1 l2 : concept_map obj ref) n :
  binding n (l1 ++ l2) =
  match binding n l1 with Some c => Some c | None => binding n l2 end.
Proof.
  induction l1 as [|[n0 c0] l1 IH]; [done|]. simpl.
  destruct (decide (n0 = n)); [done | apply IH].
Qed.

(** The default map selected for each concept name of the family. *)

Ltac decide_names :=
  repeat (case_decide; simplify_eq); try done.

Lemma default_concept_map_of_Iterator R T :
  default_concept_map (Iterator_name R) T =
  if decide (R = reference_t T) then
    [ ("increment", Fn_void_T ref (pre_increment T));
      ("dereference", Fn_ref_T (indirection T)) ]
  else [].
Proof.
  unfold default_concept_map, default_concept_map_Iterator,
    default_concept_map_BidirectionalIterator,
    default_concept_map_RandomAccessIterator, te_default_concept_map,
    Iterator_name, BidirectionalIterator_name, RandomAccessIterator_name.
  decide_names.
Qed.

Ltac unfold_default_maps :=
  unfold default_concept_map, default_concept_map_Iterator,
    default_concept_map_BidirectionalIterator,
    default_concept_map_RandomAccessIterator, te_default_concept_map,
    Iterator_name, InputIterator_name, ForwardIterator_name,
    BidirectionalIterator_name, RandomAccessIterator_name.

Lemma default_concept_map_of_InputIterator R T :
  default_concept_map (InputIterator_name R) T = [].
Proof. unfold_default_maps. decide_names. Qed.

Lemma default_concept_map_of_ForwardIterator R T :
  default_concept_map (ForwardIterator_name R) T = [].
Proof. unfold_default_maps. decide_names. Qed.

Lemma default_concept_map_of_BidirectionalIterator R T :
  default_concept_map (BidirectionalIterator_name R) T =
  if decide (R = reference_t T) then
    if when std.bidirectional_iterator_tag T then
      [ ("decrement", Fn_void_T ref (pre_decrement T)) ]
    else []
  else [].
Proof.
  unfold_default_maps. decide_names.
  destruct (when _ _); decide_names.
Qed.

Lemma default_concept_map_of_RandomAccessIterator R D T :
  default_concept_map (RandomAccessIterator_name R D) T =
  if decide (R = reference_t T /\ D = difference_t T) then
    if when std.random_access_iterator_tag T then
      [ ("advance", Fn_void_T_diff ref (std_advance T));
        ("distance", Fn_diff_TT ref (std_distance T)) ]
    else []
  else [].
Proof.
  unfold_default_maps.
  destruct (decide (R = reference_t T /\ D = difference_t T)) as [[-> ->]|Hn].
  - decide_names. destruct (when _ _); decide_names.
  - repeat (case_decide; simplify_eq); try done. by destruct Hn.
Qed.

Lemma default_concept_map_of_EqualityComparable T :
  default_concept_map ("te::EqualityComparable", []) T =
  [ ("equal", Fn_bool_TT ref (equal_to T)) ].
Proof. reflexivity. Qed.

Ltac decide_elem :=
  match goal with |- ?P => apply (@bool_decide_unpack P _) end; vm_compute; exact I.

(** The operation names each concept selected by a category requires. *)
Lemma Concept_names Category R D (C : te.concept) :
  Concept Category R D = Built C ->
  "increment" ∈ te.names (te.c_ops C) /\
  "dereference" ∈ te.names (te.c_ops C) /\
  "equal" ∈ te.names (te.c_ops C) /\
  (std.is_base_of std.bidirectional_iterator_tag Category = true <->
   "decrement" ∈ te.names (te.c_ops C)).
Proof.
  intros HC.
  destruct Category; vm_compute in HC; try discriminate; injection HC as <-.
  all: split; [decide_elem|]; split; [decide_elem|]; split; [decide_elem|].
  all: split; intros Hb; first [discriminate Hb | decide_elem | exfalso].
  all: match type of Hb with
       | ?P => apply (@bool_decide_eq_false_1 P _); [vm_compute; reflexivity | exact Hb]
       end.
Qed.

(** What the merged default maps bind, for each concept a category
    selects. *)
Lemma merged_bindings Category R D (C : te.concept) It :
  Concept Category R D = Built C ->
  binding "increment" (merged_concept_map C It) =
    (if decide (R = reference_t It)
     then Some (Fn_void_T ref (pre_increment It)) else None) /\
  binding "dereference" (merged_concept_map C It) =
    (if decide (R = reference_t It)
     then Some (Fn_ref_T (indirection It)) else None) /\
  binding "equal" (merged_concept_map C It) =
    Some (Fn_bool_TT ref (equal_to It)) /\
  (std.is_base_of std.bidirectional_iterator_tag Category = true ->
   binding "decrement" (merged_concept_map C It) =
     (if decide (R = reference_t It)
      then if when std.bidirectional_iterator_tag It
           then Some (Fn_void_T ref (pre_decrement It)) else None
      else None)).
Proof.
  intros HC.
  destruct Category; vm_compute in HC; try discriminate; injection HC as <-.
  all: unfold merged_concept_map; cbn [flat_map te.c_name te.c_refines].
  all: change ("Iterator", [R]) with (Iterator_name R).
  all: change ("InputIterator", [R]) with (InputIterator_name R).
  all: change ("ForwardIterator", [R]) with (ForwardIterator_name R).
  all: change ("BidirectionalIterator", [R]) with (BidirectionalIterator_name R).
  all: change ("RandomAccessIterator", [R; D]) with (RandomAccessIterator_name R D).
  all: rewrite ?default_concept_map_of_Iterator, ?default_concept_map_of_InputIterator,
         ?default_concept_map_of_ForwardIterator,
         ?default_concept_map_of_BidirectionalIterator,
         ?default_concept_map_of_RandomAccessIterator.
  all: repeat split; try (intros Hb; try discriminate Hb; clear Hb).
  all: destruct (decide (R = reference_t It)) as [HR|HR];
       try destruct (when std.bidirectional_iterator_tag It);
       try destruct (decide (_ /\ _));
       try destruct (when std.random_access_iterator_tag It);
       reflexivity.
Qed.

(** The entries of a vtable built for [It] under the concept of the
    wrapper: the native operators of [It]. *)
Lemma vtable_entries Category R D (C : te.concept) It vt :
  Concept Category R D = Built C -> make_vtable C It = Built vt ->
  R = reference_t It /\ vt_type vt = type_of It /\
  binding "increment" (vt_slots vt) = Some (Fn_void_T ref (pre_increment It)) /\
  binding "dereference" (vt_slots vt) = Some (Fn_ref_T (indirection It)) /\
  binding "equal" (vt_slots vt) = Some (Fn_bool_TT ref (equal_to It)) /\
  (std.is_base_of std.bidirectional_iterator_tag Category = true ->
   binding "decrement" (vt_slots vt) = Some (Fn_void_T ref (pre_decrement It))).
Proof.
  intros HC Hvt.
  destruct (Concept_names Category R D C HC) as (Ninc & Nder & Neq & Ndec).
  destruct (merged_bindings Category R D C It HC) as (Binc & Bder & Beq & Bdec).
  destruct (make_vtable_binding _ _ _ _ Hvt Ninc) as (Hty & Einc & Sinc).
  destruct (make_vtable_binding _ _ _ _ Hvt Nder) as (_ & Eder & _).
  destruct (make_vtable_binding _ _ _ _ Hvt Neq) as (_ & Eeq & _).
  rewrite Binc in Sinc, Einc. rewrite Bder in Eder. rewrite Beq in Eeq.
  destruct (decide (R = reference_t It)) as [HR|HR];
    [|by destruct Sinc].
  repeat (split; [done|]). intros Hb.
  destruct (make_vtable_binding _ _ _ _ Hvt (proj1 Ndec Hb)) as (_ & Edec & Sdec).
  rewrite (Bdec Hb) in Sdec, Edec.
  destruct (decide (R = reference_t It)); [|done].
  destruct (when _ _); [done | by destruct Sdec].
Qed.

(** ** Reading and writing the held value *)

Ltac unfold_exec :=
  unfold mbind, exec_bind, mret, exec_ret, object_at, set_object, undefined,
    virtual_, as_T, assert in *.

Lemma held_inv m this vt o :
  held m this = Some (vt, o) ->
  exists w, objects m !! this = Some w /\ vptr (poly_ w) = vt /\
            load (get this (poly_ w)) m = Ok (o, m).
Proof.
  unfold held. intros H.
  destruct (objects m !! this) as [w|] eqn:Hw; [|discriminate].
  exists w. split; [done|].
  destruct (load (get this (poly_ w)) m) as [[o' m']| |] eqn:Hl; try discriminate.
  injection H as <- <-. split; [done|].
  unfold load in *. repeat case_match; simplify_eq; done.
Qed.

Lemma store_held m this w o o' :
  objects m !! this = Some w ->
  load (get this (poly_ w)) m = Ok (o, m) ->
  exists m', store (get this (poly_ w)) o' m = Ok (tt, m') /\
             held m' this = Some (vptr (poly_ w), o') /\
             only_value_changed m m' this.
Proof.
  intros Hw Hl. destruct w as [[s vt]]. destruct s as [o0|p]; simpl in *.
  - unfold get in *; simpl in *. rewrite Hw in *. eexists. split; [reflexivity|].
    split.
    + unfold held; simpl. rewrite lookup_insert_eq. simpl.
      unfold get; simpl. by rewrite lookup_insert_eq.
    + split; [|split].
      * intros c Hc. simpl. by rewrite lookup_insert_ne.
      * eexists _, _. split; [done|]. simpl. rewrite lookup_insert_eq.
        split; [done|]. simpl. done.
      * done.
  - unfold get in *; simpl in *.
    destruct (heap m !! p) as [o1|] eqn:Hp; [|discriminate].
    eexists. split; [reflexivity|]. split.
    + unfold held; simpl. rewrite Hw. unfold get; simpl.
      by rewrite lookup_insert_eq.
    + split; [|split].
      * done.
      * eexists _, _. split; [done|]. simpl. split; [done|].
        split; [done|]. split; [done|]. intros b Hb.
        rewrite lookup_insert_ne; [done|congruence].
      * simpl. rewrite dom_insert_L.
        assert (p ∈ dom (heap m)) by (apply elem_of_dom; eauto). set_solver.
Qed.

Lemma load_same (q : void_ptr) m o m1 : load q m = Ok (o, m1) -> m1 = m.
Proof. unfold load. intros H. repeat case_match; simplify_eq; done. Qed.

Lemma held_intro m this w o :
  objects m !! this = Some w -> load (get this (poly_ w)) m = Ok (o, m) ->
  held m this = Some (vptr (poly_ w), o).
Proof. intros Hw Hl. unfold held. by rewrite Hw, Hl. Qed.

(** ** Calls through the vtable *)

Local Abbreviation invoke_void_T name :=
  (fun this : positive =>
     w ← object_at this;
     fn ← virtual_ name (poly_ w);
     call_void_T fn (get this (poly_ w));;
     mret this).

Local Abbreviation invoke_ref_T name :=
  (fun this : positive =>
     w ← object_at this;
     fn ← virtual_ name (poly_ w);
     call_ref_T fn (get this (poly_ w))).

Lemma invoke_void_T_inv name m this r m' :
  invoke_void_T name this m = Ok (r, m') ->
  r = this /\ only_value_changed m m' this /\
  exists vt o f,
    held m this = Some (vt, o) /\
    binding name (vt_slots vt) = Some (Fn_void_T ref f) /\
    dynamic_type o = vt_type vt /\
    held m' this = Some (vt, retype o (f (representation o))).
Proof.
  unfold_exec. intros H.
  destruct (objects m !! this) as [w|] eqn:Hw; [|discriminate].
  destruct (binding name (vt_slots (vptr (poly_ w)))) as [c|] eqn:Hc;
    [|discriminate].
  unfold call_void_T in H; simpl in H. destruct c; try discriminate.
  unfold_exec.
  destruct (load (get this (poly_ w)) m) as [[o m1]| |] eqn:Hl; try discriminate.
  pose proof (load_same _ _ _ _ Hl) as ->.
  simpl in H. destruct (decide (dynamic_type o = vt_type (vptr (poly_ w))));
    [|discriminate].
  destruct (store_held m this w o (retype o (f (representation o))) Hw Hl)
    as (m2 & Hs & Hh & Hf).
  unfold_exec. simpl in H. rewrite Hs in H. injection H as <- <-.
  split; [done|]. split; [done|].
  exists (vptr (poly_ w)), o, f. by rewrite (held_intro _ _ _ _ Hw Hl).
Qed.

Lemma invoke_void_T_spec name m this vt o f :
  held m this = Some (vt, o) ->
  binding name (vt_slots vt) = Some (Fn_void_T ref f) ->
  dynamic_type o = vt_type vt ->
  exists m', invoke_void_T name this m = Ok (this, m') /\
             held m' this = Some (vt, retype o (f (representation o))) /\
             only_value_changed m m' this.
Proof.
  intros Hh Hb Ht. apply held_inv in Hh as (w & Hw & <- & Hl).
  destruct (store_held m this w o (retype o (f (representation o))) Hw Hl)
    as (m2 & Hs & Hh & Hf).
  exists m2. split; [|done].
  unfold_exec. rewrite Hw, Hb. unfold call_void_T. simpl. unfold_exec.
  rewrite Hl. simpl. rewrite decide_True by done. unfold_exec. simpl.
  by rewrite Hs.
Qed.

Lemma invoke_ref_T_spec name m this vt o f :
  held m this = Some (vt, o) ->
  binding name (vt_slots vt) = Some (Fn_ref_T f) ->
  dynamic_type o = vt_type vt ->
  exists m', invoke_ref_T name this m = Ok ((f (representation o)).1, m') /\
             held m' this = Some (vt, retype o (f (representation o)).2) /\
             only_value_changed m m' this.
Proof.
  intros Hh Hb Ht. apply held_inv in Hh as (w & Hw & <- & Hl).
  destruct (store_held m this w o (retype o (f (representation o)).2) Hw Hl)
    as (m2 & Hs & Hh & Hf).
  exists m2. split; [|done].
  unfold_exec. rewrite Hw, Hb. unfold call_ref_T. simpl. unfold_exec.
  rewrite Hl. simpl. rewrite decide_True by done. unfold_exec. simpl.
  by rewrite Hs.
Qed.

(** ** The members of the wrapper, instantiated *)

Lemma has_operation_Built (C : te.concept) name :
  name ∈ te.names (te.c_ops C) -> has_operation C name = Built tt.
Proof. intros H. unfold has_operation. by rewrite decide_True. Qed.

Lemma operator_inc_built Category R D (C : te.concept) :
  Concept Category R D = Built C ->
  operator_inc obj ref Category R D = Built (invoke_void_T "increment").
Proof.
  intros HC. unfold operator_inc. rewrite HC. simpl.
  destruct (Concept_names Category R D C HC) as (N & _).
  by rewrite (has_operation_Built _ _ N).
Qed.

Lemma operator_star_built Category R D (C : te.concept) :
  Concept Category R D = Built C ->
  operator_star obj ref Category R D = Built (invoke_ref_T "dereference").
Proof.
  intros HC. unfold operator_star. rewrite HC. simpl.
  destruct (Concept_names Category R D C HC) as (_ & N & _).
  by rewrite (has_operation_Built _ _ N).
Qed.


Lemma Concept_built Category R D :
  Category <> std.output_iterator_tag ->
  exists C, Concept Category R D = Built C.
Proof. destruct Category; [|done|..]; intros _; eexists; vm_compute; reflexivity. Qed.

Lemma poly_ctor_built ba (Cc : build te.concept) Size It make_poly :
  poly_ctor ba Cc Size It = Built make_poly ->
  exists C vt, Cc = Built C /\ make_vtable C It = Built vt /\
    make_poly = (fun x => s ← local_storage ba Size It x;
                          mret {| storage_ := s; vptr := vt |}).
Proof.
  unfold poly_ctor. intros H.
  apply build_bind_Built in H as (C & HC & H).
  apply build_bind_Built in H as (vt & Hvt & H).
  injection H as <-. eauto.
Qed.

(** What the converting constructor does once it is instantiated. *)
Lemma any_iterator_ctor_built ba conv V Category R D It mk :
  any_iterator_ctor ba conv V Category R D It = Built mk ->
  ctor_static_asserts conv V Category R D It = [] /\
  exists C vt,
    Concept Category R D = Built C /\ make_vtable C It = Built vt /\
    forall this x m, exists m0,
      mk this x m = Ok (tt, m0) /\
      held m0 this =
        Some (vt, {| dynamic_type := type_of It; representation := x |}) /\
      (forall c, c <> this -> objects m0 !! c = objects m !! c) /\
      placement m0 this =
        Some (if fits_inline ba 8 It
              then Inline {| dynamic_type := type_of It; representation := x |}
              else Remote obj (fresh (dom (heap m)))).
Proof.
  unfold any_iterator_ctor. intros H.
  destruct (poly_ctor ba _ 8 It) as [make_poly|d] eqn:Hp; [|discriminate].
  destruct (ctor_static_asserts conv V Category R D It) eqn:Hs; [|discriminate].
  injection H as <-. split; [done|].
  apply poly_ctor_built in Hp as (C & vt & HC & Hvt & ->).
  exists C, vt. split; [done|]. split; [done|]. intros this x m.
  unfold_exec. unfold local_storage.
  destruct (fits_inline ba 8 It); simpl; eexists; (split; [reflexivity|]).
  - unfold held, placement, get; simpl. rewrite lookup_insert_eq; simpl.
    rewrite lookup_insert_eq. split; [done|]. split; [|done].
    intros c Hc. by rewrite lookup_insert_ne.
  - unfold held, placement, get; simpl. rewrite lookup_insert_eq; simpl.
    rewrite lookup_insert_eq. split; [done|]. split; [|done].
    intros c Hc. by rewrite lookup_insert_ne.
Qed.

Lemma wraps_vtable Category R D m this It x :
  wraps Category R D m this It x ->
  exists vt,
    held m this = Some (vt, {| dynamic_type := type_of It; representation := x |}) /\
    R = reference_t It /\ vt_type vt = type_of It /\
    binding "increment" (vt_slots vt) = Some (Fn_void_T ref (pre_increment It)) /\
    binding "dereference" (vt_slots vt) = Some (Fn_ref_T (indirection It)) /\
    binding "equal" (vt_slots vt) = Some (Fn_bool_TT ref (equal_to It)) /\
    (std.is_base_of std.bidirectional_iterator_tag Category = true ->
     binding "decrement" (vt_slots vt) = Some (Fn_void_T ref (pre_decrement It))).
Proof.
  intros (C & vt & HC & Hvt & Hh). exists vt. split; [done|].
  by apply (vtable_entries Category R D C).
Qed.

Lemma wraps_held Category R D m m' this It x vt y :
  wraps Category R D m this It x ->
  held m this = Some (vt, {| dynamic_type := type_of It; representation := x |}) ->
  held m' this = Some (vt, {| dynamic_type := type_of It; representation := y |}) ->
  wraps Category R D m' this It y.
Proof.
  intros (C & vt' & HC & Hvt & Hh) Hh1 Hh2. exists C, vt'.
  rewrite Hh in Hh1. by simplify_eq.
Qed.

(** [++w] on a wrapper of a value [x] of type [It] stores [++x]. *)
Lemma increment_wraps Category R D m this It x :
  wraps Category R D m this It x ->
  exists m', invoke_void_T "increment" this m = Ok (this, m') /\
             wraps Category R D m' this It (pre_increment It x) /\
             only_value_changed m m' this.
Proof.
  intros Hw. destruct (wraps_vtable _ _ _ _ _ _ _ Hw)
    as (vt & Hh & _ & Hty & Hinc & _).
  destruct (invoke_void_T_spec "increment" m this vt _ _ Hh Hinc)
    as (m' & Hrun & Hh' & Hf); [done|].
  exists m'. split; [done|]. split; [|done].
  by apply (wraps_held _ _ _ m m' this It x vt).
Qed.

Lemma decrement_wraps Category R D m this It x :
  std.is_base_of std.bidirectional_iterator_tag Category = true ->
  wraps Category R D m this It x ->
  exists m', invoke_void_T "decrement" this m = Ok (this, m') /\
             wraps Category R D m' this It (pre_decrement It x) /\
             only_value_changed m m' this.
Proof.
  intros Hb Hw. destruct (wraps_vtable _ _ _ _ _ _ _ Hw)
    as (vt & Hh & _ & Hty & _ & _ & _ & Hdec).
  destruct (invoke_void_T_spec "decrement" m this vt _ _ Hh (Hdec Hb))
    as (m' & Hrun & Hh' & Hf); [done|].
  exists m'. split; [done|]. split; [|done].
  by apply (wraps_held _ _ _ m m' this It x vt).
Qed.

(** [*w] yields [*x]. *)
Lemma dereference_wraps Category R D m this It x :
  wraps Category R D m this It x ->
  exists m', invoke_ref_T "dereference" this m = Ok ((indirection It x).1, m') /\
             wraps Category R D m' this It (indirection It x).2 /\
             only_value_changed m m' this.
Proof.
  intros Hw. destruct (wraps_vtable _ _ _ _ _ _ _ Hw)
    as (vt & Hh & _ & Hty & _ & Hder & _).
  destruct (invoke_ref_T_spec "dereference" m this vt _ _ Hh Hder)
    as (m' & Hrun & Hh' & Hf); [done|].
  exists m'. split; [done|]. split; [|done].
  by apply (wraps_held _ _ _ m m' this It x vt).
Qed.

Lemma repeat_inc_wraps Category R D It n : forall m this x,
  wraps Category R D m this It x ->
  exists m', repeat_inc (invoke_void_T "increment") n this m = Ok (this, m') /\
             wraps Category R D m' this It (Nat.iter n (pre_increment It) x).
Proof.
  induction n as [|n IH]; intros m this x Hw.
  - exists m. by split.
  - destruct (increment_wraps _ _ _ _ _ _ _ Hw) as (m1 & Hrun & Hw1 & _).
    destruct (IH m1 this _ Hw1) as (m2 & Hrun2 & Hw2).
    exists m2. split.
    + simpl. unfold mbind at 1, exec_bind at 1. by rewrite Hrun.
    + by rewrite Nat.iter_succ_r.
Qed.

Lemma operator_inc_inv Category R D inc :
  operator_inc obj ref Category R D = Built inc ->
  inc = invoke_void_T "increment" /\ exists C, Concept Category R D = Built C.
Proof.
  unfold operator_inc. intros H.
  apply build_bind_Built in H as (C & HC & H).
  apply build_bind_Built in H as ([] & _ & H). injection H as <-. eauto.
Qed.

Lemma operator_dec_inv Category R D dec :
  operator_dec obj ref Category R D = Built dec ->
  dec = invoke_void_T "decrement" /\
  std.is_base_of std.bidirectional_iterator_tag Category = true /\
  exists C, Concept Category R D = Built C.
Proof.
  unfold operator_dec, iterator_category. intros H.
  destruct (std.is_base_of _ Category); [|discriminate].
  apply build_bind_Built in H as (C & HC & H).
  apply build_bind_Built in H as ([] & _ & H). injection H as <-. eauto.
Qed.

Lemma operator_star_inv Category R D star :
  operator_star obj ref Category R D = Built star ->
  star = invoke_ref_T "dereference" /\ exists C, Concept Category R D = Built C.
Proof.
  unfold operator_star. intros H.
  apply build_bind_Built in H as (C & HC & H).
  apply build_bind_Built in H as ([] & _ & H). injection H as <-. eauto.
Qed.

Local Abbreviation compare NDEBUG :=
  (fun a b : positive =>
     wa ← object_at a;
     wb ← object_at b;
     fa ← virtual_ "equal" (poly_ wa);
     fb ← virtual_ "equal" (poly_ wb);
     assert NDEBUG (fnptr_eqb fa fb);;
     call_bool_TT fa (get a (poly_ wa)) (get b (poly_ wb))).

Lemma operator_eq_inv NDEBUG Category R D eq :
  operator_eq obj ref NDEBUG Category R D = Built eq ->
  eq = compare NDEBUG /\ exists C, Concept Category R D = Built C.
Proof.
  unfold operator_eq. intros H.
  apply build_bind_Built in H as (C & HC & H).
  apply build_bind_Built in H as ([] & _ & H). injection H as <-. eauto.
Qed.


Lemma virtual_held name m this w vt o c :
  objects m !! this = Some w -> held m this = Some (vt, o) ->
  binding name (vt_slots vt) = Some c ->
  virtual_ name (poly_ w) m =
    Ok ({| fn_type := vt_type vt; fn_name := name; fn_code := c |}, m).
Proof.
  intros Hw Hh Hb. apply held_inv in Hh as (w' & Hw' & <- & _).
  simplify_eq. unfold virtual_. by rewrite Hb.
Qed.

Lemma fnptr_eqb_same_name t1 t2 n (c1 c2 : callable obj ref) :
  fnptr_eqb {| fn_type := t1; fn_name := n; fn_code := c1 |}
            {| fn_type := t2; fn_name := n; fn_code := c2 |}
  = bool_decide (t1 = t2).
Proof.
  unfold fnptr_eqb; simpl.
  rewrite (bool_decide_eq_true_2 (n = n)) by done. apply andb_true_r.
Qed.


Lemma call_bool_TT_run (fn : fnptr obj ref) f pa pb m oa ob :
  fn_code fn = Fn_bool_TT ref f ->
  load pa m = Ok (oa, m) -> load pb m = Ok (ob, m) ->
  call_bool_TT fn pa pb m =
    if decide (dynamic_type oa = fn_type fn) then
      if decide (dynamic_type ob = fn_type fn)
      then Ok (f (representation oa) (representation ob), m)
      else Undefined
    else Undefined.
Proof.
  intros Hc Ha Hb. unfold call_bool_TT. rewrite Hc.
  unfold mbind at 1, exec_bind at 1. rewrite Ha.
  unfold mbind at 1, exec_bind at 1, as_T at 1.
  destruct (decide (dynamic_type oa = fn_type fn)); [|done].
  unfold mret at 1, exec_ret at 1.
  unfold mbind at 1, exec_bind at 1. rewrite Hb.
  unfold mbind at 1, exec_bind at 1, as_T at 1.
  by destruct (decide (dynamic_type ob = fn_type fn)).
Qed.

(** ** Behaviour depends only on what is held *)

Lemma invoke_ref_T_held name m this vt o :
  held m this = Some (vt, o) ->
  (exists f m',
      binding name (vt_slots vt) = Some (Fn_ref_T f) /\
      dynamic_type o = vt_type vt /\
      invoke_ref_T name this m = Ok ((f (representation o)).1, m') /\
      held m' this = Some (vt, retype o (f (representation o)).2)) \/
  ((forall f, binding name (vt_slots vt) = Some (Fn_ref_T f) ->
              dynamic_type o <> vt_type vt) /\
   invoke_ref_T name this m = Undefined).
Proof.
  intros Hh.
  destruct (binding name (vt_slots vt)) as [c|] eqn:Hb.
  - destruct c as [g|f|g|g|g|];
      try (right; split; [intros f' Hf'; discriminate Hf'|];
           apply held_inv in Hh as (w & Hw & <- & Hl); unfold_exec;
           rewrite Hw, Hb; reflexivity).
    destruct (decide (dynamic_type o = vt_type vt)) as [Ht|Ht].
    + left. destruct (invoke_ref_T_spec name m this vt o f Hh Hb Ht)
        as (m' & Hrun & Hh' & _). by exists f, m'.
    + right. split; [by intros f' _|].
      apply held_inv in Hh as (w & Hw & <- & Hl). unfold_exec.
      rewrite Hw, Hb. unfold call_ref_T; simpl. unfold_exec. rewrite Hl; simpl.
      by rewrite decide_False.
  - right. split; [intros f' Hf'; discriminate Hf'|].
    apply held_inv in Hh as (w & Hw & <- & Hl). unfold_exec.
    by rewrite Hw, Hb.
Qed.

Lemma invoke_void_T_held name m this vt o :
  held m this = Some (vt, o) ->
  (exists f m',
      binding name (vt_slots vt) = Some (Fn_void_T ref f) /\
      dynamic_type o = vt_type vt /\
      invoke_void_T name this m = Ok (this, m') /\
      held m' this = Some (vt, retype o (f (representation o)))) \/
  ((forall f, binding name (vt_slots vt) = Some (Fn_void_T ref f) ->
              dynamic_type o <> vt_type vt) /\
   invoke_void_T name this m = Undefined).
Proof.
  intros Hh.
  destruct (binding name (vt_slots vt)) as [c|] eqn:Hb.
  - destruct c as [f|g|g|g|g|];
      try (right; split; [intros f' Hf'; discriminate Hf'|];
           apply held_inv in Hh as (w & Hw & <- & Hl); unfold_exec;
           rewrite Hw, Hb; reflexivity).
    destruct (decide (dynamic_type o = vt_type vt)) as [Ht|Ht].
    + left. destruct (invoke_void_T_spec name m this vt o f Hh Hb Ht)
        as (m' & Hrun & Hh' & _). by exists f, m'.
    + right. split; [by intros f' _|].
      apply held_inv in Hh as (w & Hw & <- & Hl). unfold_exec.
      rewrite Hw, Hb. unfold call_void_T; simpl. unfold_exec. rewrite Hl; simpl.
      by rewrite decide_False.
  - right. split; [intros f' Hf'; discriminate Hf'|].
    apply held_inv in Hh as (w & Hw & <- & Hl). unfold_exec.
    by rewrite Hw, Hb.
Qed.

(** Two wrappers holding the same thing dereference to the same value
    and hold the same thing afterwards, wherever their values live. *)
Lemma invoke_ref_T_congr name m1 t1 m2 t2 :
  held m1 t1 = held m2 t2 -> is_Some (held m1 t1) ->
  result_of (invoke_ref_T name t1 m1) = result_of (invoke_ref_T name t2 m2) /\
  (state_after (invoke_ref_T name t1 m1) ≫= fun s => held s t1) =
  (state_after (invoke_ref_T name t2 m2) ≫= fun s => held s t2).
Proof.
  intros Heq [[vt o] Hh1]. assert (Hh2 := Hh1). rewrite Heq in Hh2.
  destruct (invoke_ref_T_held name m1 t1 vt o Hh1)
    as [(f1 & m1' & Hb1 & Ht1 & Hr1 & Hh1')|[Hn1 Hr1]];
  destruct (invoke_ref_T_held name m2 t2 vt o Hh2)
    as [(f2 & m2' & Hb2 & Ht2 & Hr2 & Hh2')|[Hn2 Hr2]];
  rewrite Hr1, Hr2; simpl.
  - rewrite Hb1 in Hb2. injection Hb2 as <-. by rewrite Hh1', Hh2'.
  - by destruct (Hn2 f1 Hb1).
  - by destruct (Hn1 f2 Hb2).
  - done.
Qed.

Lemma invoke_void_T_congr name m1 t1 m2 t2 :
  held m1 t1 = held m2 t2 -> is_Some (held m1 t1) ->
  (result_of (invoke_void_T name t1 m1) = Ok t1 /\
   result_of (invoke_void_T name t2 m2) = Ok t2 \/
   result_of (invoke_void_T name t1 m1) = Undefined /\
   result_of (invoke_void_T name t2 m2) = Undefined) /\
  (state_after (invoke_void_T name t1 m1) ≫= fun s => held s t1) =
  (state_after (invoke_void_T name t2 m2) ≫= fun s => held s t2).
Proof.
  intros Heq [[vt o] Hh1]. assert (Hh2 := Hh1). rewrite Heq in Hh2.
  destruct (invoke_void_T_held name m1 t1 vt o Hh1)
    as [(f1 & m1' & Hb1 & Ht1 & Hr1 & Hh1')|[Hn1 Hr1]];
  destruct (invoke_void_T_held name m2 t2 vt o Hh2)
    as [(f2 & m2' & Hb2 & Ht2 & Hr2 & Hh2')|[Hn2 Hr2]];
  rewrite Hr1, Hr2; simpl.
  - rewrite Hb1 in Hb2. injection Hb2 as <-. rewrite Hh1', Hh2'. by split; [left|].
  - by destruct (Hn2 f1 Hb1).
  - by destruct (Hn1 f2 Hb2).
  - by split; [right|].
Qed.

Lemma compare_held NDEBUG m a b vta oa vtb ob :
  held m a = Some (vta, oa) -> held m b = Some (vtb, ob) ->
  compare NDEBUG a b m =
    match binding "equal" (vt_slots vta), binding "equal" (vt_slots vtb) with
    | Some ca, Some cb =>
        if NDEBUG || bool_decide (vt_type vta = vt_type vtb) then
          match ca with
          | Fn_bool_TT _ f =>
              if decide (dynamic_type oa = vt_type vta) then
                if decide (dynamic_type ob = vt_type vta)
                then Ok (f (representation oa) (representation ob), m)
                else Undefined
              else Undefined
          | _ => Undefined
          end
        else AssertionFailed
    | _, _ => Undefined
    end.
Proof.
  intros Ha Hb.
  apply held_inv in Ha as (wa & Hwa & <- & Hla).
  apply held_inv in Hb as (wb & Hwb & <- & Hlb).
  unfold mbind at 1, exec_bind at 1, object_at at 1. rewrite Hwa.
  unfold mbind at 1, exec_bind at 1, object_at at 1. rewrite Hwb.
  unfold mbind at 1, exec_bind at 1, virtual_ at 1.
  destruct (binding "equal" (vt_slots (vptr (poly_ wa)))) as [ca|]; [|done].
  unfold mret at 1, exec_ret at 1.
  unfold mbind at 1, exec_bind at 1, virtual_ at 1.
  destruct (binding "equal" (vt_slots (vptr (poly_ wb)))) as [cb|]; [|done].
  unfold mret at 1, exec_ret at 1.
  rewrite fnptr_eqb_same_name.
  unfold mbind at 1, exec_bind at 1, assert.
  destruct NDEBUG, (bool_decide (vt_type (vptr (poly_ wa)) = vt_type (vptr (poly_ wb))));
    simpl; try done.
  all: destruct ca; try done.
  all: erewrite call_bool_TT_run; [|reflexivity|exact Hla|exact Hlb]; done.
Qed.

Lemma compare_congr NDEBUG m1 a1 b1 m2 a2 b2 :
  held m1 a1 = held m2 a2 -> held m1 b1 = held m2 b2 ->
  is_Some (held m1 a1) -> is_Some (held m1 b1) ->
  result_of (compare NDEBUG a1 b1 m1) = result_of (compare NDEBUG a2 b2 m2).
Proof.
  intros Ha Hb [[vta oa] Ha1] [[vtb ob] Hb1].
  assert (Ha2 := Ha1). rewrite Ha in Ha2.
  assert (Hb2 := Hb1). rewrite Hb in Hb2.
  rewrite (compare_held NDEBUG m1 a1 b1 _ _ _ _ Ha1 Hb1).
  rewrite (compare_held NDEBUG m2 a2 b2 _ _ _ _ Ha2 Hb2).
  repeat case_match; done.
Qed.

(** ** Swapping *)

Lemma held_lookup m this s vt :
  objects m !! this = Some {| poly_ := {| storage_ := s; vptr := vt |} |} ->
  held m this =
    match s with
    | Inline o => Some (vt, o)
    | Remote _ p => (fun o => (vt, o)) <$> heap m !! p
    end.
Proof.
  intros Hw. unfold held, get, load. rewrite Hw; simpl.
  destruct s as [o|p]; simpl; [by rewrite Hw|].
  by destruct (heap m !! p).
Qed.

Lemma swap_held m a b :
  is_Some (objects m !! a) -> is_Some (objects m !! b) ->
  exists m', friend_swap a b m = Ok (tt, m') /\
    held m' a = held m b /\ held m' b = held m a /\
    placement m' a = placement m b /\ placement m' b = placement m a /\
    (forall c, c <> a -> c <> b -> objects m' !! c = objects m !! c) /\
    heap m' = heap m.
Proof.
  intros [wa Ha] [wb Hb]. unfold friend_swap, swap, poly_swap. unfold_exec.
  rewrite Ha, Hb. simpl. eexists. split; [reflexivity|].
  destruct wa as [[sa vta]], wb as [[sb vtb]]. simpl.
  set (m' := {| objects := _; heap := heap m |}).
  assert (Hb' : objects m' !! b = Some {| poly_ := {| storage_ := sa; vptr := vta |} |})
    by (simpl; apply lookup_insert_eq).
  assert (Ha' : objects m' !! a = Some {| poly_ := {| storage_ := sb; vptr := vtb |} |}).
  { simpl. destruct (decide (a = b)) as [->|Hne].
    - rewrite lookup_insert_eq. rewrite Ha in Hb. by injection Hb as <- <-.
    - rewrite lookup_insert_ne by done. apply lookup_insert_eq. }
  rewrite (held_lookup m' a _ _ Ha'), (held_lookup m' b _ _ Hb').
  rewrite (held_lookup m a _ _ Ha), (held_lookup m b _ _ Hb).
  unfold placement. rewrite Ha', Hb', Ha, Hb. simpl.
  repeat split; try done.
  intros c Hca Hcb. by rewrite !lookup_insert_ne.
Qed.

Lemma held_ext m m' c :
  objects m' !! c = objects m !! c -> heap m' = heap m ->
  held m' c = held m c.
Proof.
  intros Ho Hh. destruct (objects m !! c) as [[[s vt]]|] eqn:Hc.
  - rewrite (held_lookup m c s vt Hc).
    rewrite (held_lookup m' c s vt Ho). by rewrite Hh.
  - unfold held. by rewrite Ho, Hc.
Qed.

Lemma held_object m this :
  is_Some (held m this) -> is_Some (objects m !! this).
Proof.
  intros [[vt o] H]. apply held_inv in H as (w & Hw & _). eauto.
Qed.

Lemma wraps_transfer Category R D m m' a b It x :
  held m' a = held m b ->
  wraps Category R D m b It x -> wraps Category R D m' a It x.
Proof.
  intros Hh (C & vt & HC & Hvt & Hb). exists C, vt. by rewrite Hh.
Qed.


(** ** When a vtable can be built *)

Lemma bind_all_is_built ops (cm : concept_map obj ref) :
  is_built (bind_all ops cm) =
  forallb (fun n => match binding n cm with Some _ => true | None => false end) ops.
Proof.
  induction ops as [|n rest IH]; [done|]. simpl.
  destruct (binding n cm); [|done]. simpl. rewrite <- IH.
  by destruct (bind_all rest cm).
Qed.

Lemma make_vtable_is_built_eq (C : te.concept) It :
  is_built (make_vtable C It) =
  forallb (fun n => match binding n (merged_concept_map C It) with
                    | Some _ => true
                    | None => false
                    end) (te.names (te.c_ops C)).
Proof.
  unfold make_vtable, complete_concept_map. rewrite <- bind_all_is_built.
  by destruct (bind_all _ _).
Qed.

Lemma bind_all_diagnostics ops (cm : concept_map obj ref) d :
  d ∈ diagnostics_of (bind_all ops cm) ->
  exists n, d = "concept map is missing the operation '" +:+ n +:+ "'".
Proof.
  induction ops as [|n rest IH]; simpl; [by intros ?%elem_of_nil|].
  destruct (binding n cm).
  - destruct (bind_all rest cm); simpl in *; [by intros ?%elem_of_nil|done].
  - simpl. intros [->|Hd]%elem_of_cons; [eauto|]. by apply IH.
Qed.

(** Exactly when the engine can build the vtable of [It] for the
    concept a category selects. *)
Lemma make_vtable_is_built Category R D (C : te.concept) It :
  Concept Category R D = Built C ->
  is_built (make_vtable C It) =
  bool_decide (R = reference_t It) &&
  match Category with
  | std.input_iterator_tag | std.forward_iterator_tag => true
  | std.bidirectional_iterator_tag => when std.bidirectional_iterator_tag It
  | std.random_access_iterator_tag =>
      bool_decide (D = difference_t It) && when std.random_access_iterator_tag It
  | std.output_iterator_tag => false
  end.
Proof.
  intros HC. rewrite make_vtable_is_built_eq.
  destruct Category; vm_compute in HC; try discriminate; injection HC as <-.
  all: unfold merged_concept_map; cbn [flat_map te.c_name te.c_refines te.c_ops].
  all: change ("Iterator", [R]) with (Iterator_name R).
  all: change ("InputIterator", [R]) with (InputIterator_name R).
  all: change ("ForwardIterator", [R]) with (ForwardIterator_name R).
  all: change ("BidirectionalIterator", [R]) with (BidirectionalIterator_name R).
  all: change ("RandomAccessIterator", [R; D]) with (RandomAccessIterator_name R D).
  all: rewrite ?default_concept_map_of_Iterator, ?default_concept_map_of_InputIterator,
         ?default_concept_map_of_ForwardIterator,
         ?default_concept_map_of_BidirectionalIterator,
         ?default_concept_map_of_RandomAccessIterator.
  all: destruct (decide (R = reference_t It)) as [HR|HR];
       [rewrite (bool_decide_eq_true_2 _ HR)|rewrite (bool_decide_eq_false_2 _ HR)].
  all: try (destruct (decide (D = difference_t It)) as [HD|HD];
       [rewrite (bool_decide_eq_true_2 _ HD), (decide_True (P := _ /\ _)) by done
       |rewrite (bool_decide_eq_false_2 _ HD), (decide_False (P := _ /\ _)) by tauto]).
  all: try (rewrite (decide_False (P := _ /\ _)) by tauto).
  all: unfold when; destruct (std.iterator_category (traits It)); reflexivity.
Qed.

(** ** Diagnostics of the converting constructor *)

Lemma any_iterator_ctor_diagnostics ba conv V Category R D It :
  diagnostics_of (any_iterator_ctor ba conv V Category R D It) =
  diagnostics_of (poly_ctor ba (Concept Category R D) 8 It)
  ++ ctor_static_asserts conv V Category R D It.
Proof.
  unfold any_iterator_ctor.
  destruct (poly_ctor ba _ 8 It) as [mk|d];
    destruct (ctor_static_asserts conv V Category R D It); simpl; done.
Qed.

Lemma any_iterator_ctor_is_built ba conv V Category R D It :
  is_built (any_iterator_ctor ba conv V Category R D It) =
  is_built (poly_ctor ba (Concept Category R D) 8 It)
  && bool_decide (ctor_static_asserts conv V Category R D It = []).
Proof.
  unfold any_iterator_ctor.
  by destruct (poly_ctor ba _ 8 It) as [mk|d];
    destruct (ctor_static_asserts conv V Category R D It).
Qed.

Lemma poly_ctor_is_built ba (C : te.concept) Size It :
  is_built (poly_ctor ba (Built C) Size It) = is_built (make_vtable C It).
Proof. unfold poly_ctor. simpl. by destruct (make_vtable C It). Qed.

Lemma poly_ctor_diagnostics ba Category R D It d :
  d ∈ diagnostics_of (poly_ctor ba (Concept Category R D) 8 It) ->
  (exists n, d = "concept map is missing the operation '" +:+ n +:+ "'") \/
  d = "incomplete type 'detail::iterator_category_to_concept'".
Proof.
  unfold poly_ctor.
  destruct (Concept Category R D) as [C|dc] eqn:HC; simpl.
  - unfold make_vtable, complete_concept_map.
    destruct (bind_all _ _) as [slots|db] eqn:Hb; simpl;
      [by intros ?%elem_of_nil|].
    intros Hd. left. apply (bind_all_diagnostics (te.names (te.c_ops C))
                              (merged_concept_map C It)).
    by rewrite Hb.
  - destruct Category; vm_compute in HC; try discriminate.
    injection HC as <-. intros ->%list_elem_of_singleton. by right.
Qed.

Lemma static_asserts_checks conv V Category R D It :
  ctor_static_asserts conv V Category R D It = [] <->
  conv (std.value_type (traits It)) V = true /\
  conv (std.reference (traits It)) R = true /\
  std.is_base_of Category (std.iterator_category (traits It)) = true /\
  std.is_same D (std.difference_type (traits It)) = true.
Proof.
  unfold ctor_static_asserts, static_assert, iterator_category, value_type,
    reference, difference_type.
  destruct (conv _ V), (conv _ R), (std.is_base_of _ _), (std.is_same _ _);
    simpl; split; try done; try (by intros (? & ? & ? & ?)).
Qed.

Lemma static_asserts_report conv V Category R D It :
  bool_decide (value_type_message ∈ ctor_static_asserts conv V Category R D It)
    = negb (conv (std.value_type (traits It)) V) /\
  bool_decide (reference_message ∈ ctor_static_asserts conv V Category R D It)
    = negb (conv (std.reference (traits It)) R) /\
  bool_decide (iterator_category_message
                 ∈ ctor_static_asserts conv V Category R D It)
    = negb (std.is_base_of Category (std.iterator_category (traits It))) /\
  bool_decide (difference_type_message
                 ∈ ctor_static_asserts conv V Category R D It)
    = negb (std.is_same D (std.difference_type (traits It))).
Proof.
  unfold ctor_static_asserts, static_assert, iterator_category, value_type,
    reference, difference_type.
  destruct (conv _ V), (conv _ R), (std.is_base_of _ _), (std.is_same _ _);
    vm_compute; done.
Qed.

(** ** The native iterator *)

Lemma native_advance_iter It n : forall x y,
  native_advance It n x = Some y -> y = Nat.iter n (pre_increment It) x.
Proof.
  induction n as [|n IH]; intros x y H; simpl in H.
  - by injection H.
  - unfold native_increment in H.
    destruct (incrementable It x); [|discriminate].
    rewrite Nat.iter_succ_r. by apply IH.
Qed.

(** * The claims *)

(** C1, as amended: for every count N at which the native iterator can
    be incremented N times and then dereferenced, erasing it into an
    [any_iterator], applying [operator++] N times and dereferencing
    with [operator*] yields the value the native iterator yields; the
    increment and the dereference of the wrapper are exactly [++self]
    and [*self] of the wrapped iterator.  Where the native dereference
    is undefined, as at the end of the sequence, nothing is claimed. *)
Theorem erased_increment_dereference_agree_with_native
    ba conv V Category R D It mk (N : nat) this x m v :
  any_iterator_ctor ba conv V Category R D It = Built mk ->
  native_nth It N x = Some v ->
  exists inc star m0 m1 m2,
    operator_inc obj ref Category R D = Built inc /\
    operator_star obj ref Category R D = Built star /\
    mk this x m = Ok (tt, m0) /\
    repeat_inc inc N this m0 = Ok (this, m1) /\
    star this m1 = Ok (v, m2) /\
    default_concept_map (Iterator_name (reference_t It)) It =
      [ ("increment", Fn_void_T ref (fun self => pre_increment It self));
        ("dereference", Fn_ref_T (fun self => indirection It self)) ] /\
    forall m' this' y,
      wraps Category R D m' this' It y ->
      (forall y', native_increment It y = Some y' ->
         exists m'', inc this' m' = Ok (this', m'') /\
                     wraps Category R D m'' this' It y') /\
      (forall v', native_dereference It y = Some v' ->
         exists m'', star this' m' = Ok (v', m'') /\
                     wraps Category R D m'' this' It (indirection It y).2).
Proof.
  intros Hctor Hnative.
  assert (Hv : v = (indirection It (Nat.iter N (pre_increment It) x)).1).
  { unfold native_nth in Hnative.
    destruct (native_advance It N x) as [y|] eqn:Hadv; [|discriminate].
    rewrite (native_advance_iter It N x y Hadv) in Hnative.
    unfold native_dereference in Hnative.
    destruct (dereferenceable It _); [|discriminate]. by injection Hnative. }
  subst v.
  destruct (any_iterator_ctor_built _ _ _ _ _ _ _ _ Hctor)
    as (_ & C & vt & HC & Hvt & Hmk).
  destruct (Hmk this x m) as (m0 & Hrun0 & Hh0 & _).
  assert (Hw0 : wraps Category R D m0 this It x) by (by exists C, vt).
  destruct (repeat_inc_wraps Category R D It N m0 this x Hw0) as (m1 & Hrun1 & Hw1).
  destruct (dereference_wraps _ _ _ _ _ _ _ Hw1) as (m2 & Hrun2 & _).
  exists (fun this => w ← object_at this;
                      fn ← virtual_ "increment" (poly_ w);
                      call_void_T fn (get this (poly_ w));; mret this),
         (fun this => w ← object_at this;
                      fn ← virtual_ "dereference" (poly_ w);
                      call_ref_T fn (get this (poly_ w))), m0, m1, m2.
  split; [by apply (operator_inc_built _ _ _ C)|].
  split; [by apply (operator_star_built _ _ _ C)|].
  do 3 (split; [done|]).
  split; [by rewrite default_concept_map_of_Iterator, decide_True|].
  intros m' this' y Hw'. split.
  - intros y' Hy'. unfold native_increment in Hy'.
    destruct (incrementable It y); [|discriminate]. injection Hy' as <-.
    destruct (increment_wraps _ _ _ _ _ _ _ Hw') as (m'' & ? & ? & _). eauto.
  - intros v' Hv'. unfold native_dereference in Hv'.
    destruct (dereferenceable It y); [|discriminate]. injection Hv' as <-.
    destruct (dereference_wraps _ _ _ _ _ _ _ Hw') as (m'' & ? & ? & _). eauto.
Qed.

(** C6: [operator==] first asserts, as a debug-only check, that both
    operands carry the same binding for ["equal"], and only then invokes
    that binding on the two stored values; when the bindings differ the
    comparison is undefined behaviour that nothing but the assertion
    guards. *)
Theorem equality_asserts_identical_binding_then_invokes_it
    NDEBUG Category R D eq m a b Ita Itb x y :
  operator_eq obj ref NDEBUG Category R D = Built eq ->
  wraps Category R D m a Ita x ->
  wraps Category R D m b Itb y ->
  exists wa wb fa fb,
    objects m !! a = Some wa /\ objects m !! b = Some wb /\
    virtual_ "equal" (poly_ wa) m = Ok (fa, m) /\
    virtual_ "equal" (poly_ wb) m = Ok (fb, m) /\
    fn_code fa = Fn_bool_TT ref (equal_to Ita) /\
    (fnptr_eqb fa fb = true -> eq a b m = Ok (equal_to Ita x y, m)) /\
    (fnptr_eqb fa fb = false ->
     eq a b m = if NDEBUG then Undefined else AssertionFailed).
Proof.
  intros Heq Hwa Hwb. apply operator_eq_inv in Heq as (-> & _).
  destruct (wraps_vtable _ _ _ _ _ _ _ Hwa) as (vta & Hha & _ & Htya & _ & _ & Hea & _).
  destruct (wraps_vtable _ _ _ _ _ _ _ Hwb) as (vtb & Hhb & _ & Htyb & _ & _ & Heb & _).
  destruct (held_inv _ _ _ _ Hha) as (wa & Hoa & Hva & Hla).
  destruct (held_inv _ _ _ _ Hhb) as (wb & Hob & Hvb & Hlb).
  pose proof (virtual_held "equal" m a wa vta _ _ Hoa Hha Hea) as Hfa.
  pose proof (virtual_held "equal" m b wb vtb _ _ Hob Hhb Heb) as Hfb.
  eexists wa, wb, _, _. do 4 (split; [done|]). split; [done|].
  rewrite fnptr_eqb_same_name, Htya, Htyb.
  assert (Hrun : forall r,
    (if bool_decide (type_of Ita = type_of Itb) || NDEBUG
     then call_bool_TT
            {| fn_type := vt_type vta; fn_name := "equal";
               fn_code := Fn_bool_TT ref (equal_to Ita) |}
            (get a (poly_ wa)) (get b (poly_ wb)) m
     else AssertionFailed) = r ->
    (wa ← object_at a; wb ← object_at b;
     fa ← virtual_ "equal" (poly_ wa);
     fb ← virtual_ "equal" (poly_ wb);
     assert NDEBUG (fnptr_eqb fa fb);;
     call_bool_TT fa (get a (poly_ wa)) (get b (poly_ wb))) m = r).
  { intros r <-.
    unfold mbind at 1, exec_bind at 1, object_at at 1. rewrite Hoa.
    unfold mbind at 1, exec_bind at 1, object_at at 1. rewrite Hob.
    unfold mbind at 1, exec_bind at 1. rewrite Hfa.
    unfold mbind at 1, exec_bind at 1. rewrite Hfb.
    rewrite fnptr_eqb_same_name, Htya, Htyb.
    unfold mbind at 1, exec_bind at 1, assert.
    by destruct NDEBUG, (bool_decide (type_of Ita = type_of Itb)). }
  split; intros Hty; apply Hrun; rewrite Hty; simpl.
  - apply bool_decide_eq_true_1 in Hty.
    erewrite call_bool_TT_run; [|reflexivity|exact Hla|exact Hlb]; simpl.
    rewrite decide_True by done. by rewrite decide_True by congruence.
  - apply bool_decide_eq_false_1 in Hty.
    destruct NDEBUG; [|done].
    erewrite call_bool_TT_run; [|reflexivity|exact Hla|exact Hlb]; simpl.
    rewrite decide_True by done. by rewrite decide_False by congruence.
Qed.

(** C9: [operator!=] returns exactly the negation of [operator==] on
    the same operands, and so fails exactly where [operator==] fails. *)
Theorem not_equal_is_negated_equal NDEBUG Category R D eq ne a b m :
  operator_eq obj ref NDEBUG Category R D = Built eq ->
  operator_ne obj ref NDEBUG Category R D = Built ne ->
  ne a b m =
    match eq a b m with
    | Ok (r, m') => Ok (negb r, m')
    | AssertionFailed => AssertionFailed
    | Undefined => Undefined
    end.
Proof.
  intros Heq Hne. unfold operator_ne in Hne. rewrite Heq in Hne. simpl in Hne.
  injection Hne as <-. unfold mbind, exec_bind, mret, exec_ret.
  by destruct (eq a b m) as [[r m']| |].
Qed.


(** C8: [swap(a, b)] on two wrappers of one instantiation is a symmetric
    exchange: afterwards [a] behaves as [b] did and [b] as [a] did under
    dereference, increment and equality, whatever concrete iterator
    types the two were erased from. *)
Theorem swap_exchanges_observable_behaviour NDEBUG Category R D m a b :
  is_Some (held m a) -> is_Some (held m b) ->
  exists m',
    friend_swap a b m = Ok (tt, m') /\
    held m' a = held m b /\ held m' b = held m a /\
    (forall It x, wraps Category R D m b It x -> wraps Category R D m' a It x) /\
    (forall It x, wraps Category R D m a It x -> wraps Category R D m' b It x) /\
    (forall star, operator_star obj ref Category R D = Built star ->
       result_of (star a m') = result_of (star b m) /\
       result_of (star b m') = result_of (star a m)) /\
    (forall inc, operator_inc obj ref Category R D = Built inc ->
       (state_after (inc a m') ≫= fun s => held s a) =
       (state_after (inc b m) ≫= fun s => held s b) /\
       (state_after (inc b m') ≫= fun s => held s b) =
       (state_after (inc a m) ≫= fun s => held s a)) /\
    (forall eq, operator_eq obj ref NDEBUG Category R D = Built eq ->
       result_of (eq a b m') = result_of (eq b a m) /\
       result_of (eq b a m') = result_of (eq a b m) /\
       forall c, c <> a -> c <> b -> is_Some (held m c) ->
         result_of (eq a c m') = result_of (eq b c m) /\
         result_of (eq c a m') = result_of (eq c b m) /\
         result_of (eq b c m') = result_of (eq a c m) /\
         result_of (eq c b m') = result_of (eq c a m)).
Proof.
  intros Hsa Hsb.
  destruct (swap_held m a b (held_object _ _ Hsa) (held_object _ _ Hsb))
    as (m' & Hrun & Hab & Hba & _ & _ & Hothers & Hheap).
  assert (Hsa' : is_Some (held m' a)) by (by rewrite Hab).
  assert (Hsb' : is_Some (held m' b)) by (by rewrite Hba).
  exists m'. do 3 (split; [done|]).
  split; [intros It x; by apply wraps_transfer|].
  split; [intros It x; by apply wraps_transfer|].
  split; [|split].
  - intros star Hstar. apply operator_star_inv in Hstar as (-> & _).
    split; by apply invoke_ref_T_congr.
  - intros inc Hinc. apply operator_inc_inv in Hinc as (-> & _).
    split; by apply invoke_void_T_congr.
  - intros eq Heq. apply operator_eq_inv in Heq as (-> & _).
    split; [by apply compare_congr|]. split; [by apply compare_congr|].
    intros c Hca Hcb Hsc.
    assert (Hc : held m' c = held m c) by (apply held_ext; auto).
    assert (Hsc' : is_Some (held m' c)) by (by rewrite Hc).
    repeat split; by apply compare_congr.
Qed.


(** C4: the iterator concepts form a purely additive refinement chain
    Iterator, InputIterator, ForwardIterator, BidirectionalIterator,
    RandomAccessIterator: the merged operations of each are those of
    its base followed by what it adds (increment and dereference;
    equality; default construction; decrement; advance and distance),
    so every base's operations are kept and none is removed. *)
Theorem iterator_concepts_refine_additively R D :
  exists CC CA De Sw EC DC I In F B RA,
    te.CopyConstructible = Built CC /\ te.CopyAssignable = Built CA /\
    te.Destructible = Built De /\ te.Swappable = Built Sw /\
    te.EqualityComparable = Built EC /\ te.DefaultConstructible = Built DC /\
    Iterator R = Built I /\ InputIterator R = Built In /\
    ForwardIterator R = Built F /\ BidirectionalIterator R = Built B /\
    RandomAccessIterator R D = Built RA /\
    te.c_ops I =
      te.c_ops CC ++ te.c_ops CA ++ te.c_ops De ++ te.c_ops Sw ++
      [ {| te.op_name := "increment";
           te.op_sig := te.function Void [LRef ErasedT] |};
        {| te.op_name := "dereference";
           te.op_sig := te.function R [LRef ErasedT] |} ] /\
    te.c_ops In = te.c_ops I ++ te.c_ops EC /\
    te.names (te.c_ops EC) = ["equal"] /\
    te.c_ops F = te.c_ops In ++ te.c_ops DC /\
    te.names (te.c_ops DC) = ["default-construct"] /\
    te.c_ops B =
      te.c_ops F ++
      [ {| te.op_name := "decrement";
           te.op_sig := te.function Void [LRef ErasedT] |} ] /\
    te.c_ops RA =
      te.c_ops B ++
      [ {| te.op_name := "advance";
           te.op_sig := te.function Void [LRef ErasedT; D] |};
        {| te.op_name := "distance";
           te.op_sig := te.function D [LRef (Const ErasedT); LRef (Const ErasedT)] |} ] /\
    te.c_ops I ⊆ te.c_ops In /\ te.c_ops In ⊆ te.c_ops F /\
    te.c_ops F ⊆ te.c_ops B /\ te.c_ops B ⊆ te.c_ops RA /\
    te.c_ops EC ⊆ te.c_ops In /\ te.c_ops DC ⊆ te.c_ops F /\
    NoDup (te.names (te.c_ops RA)) /\
    te.c_refines In = te.c_name I :: te.c_refines I ++ [te.c_name EC] /\
    te.c_refines F = te.c_name In :: te.c_refines In ++ [te.c_name DC] /\
    te.c_refines B = te.c_name F :: te.c_refines F /\
    te.c_refines RA = te.c_name B :: te.c_refines B.
Proof.
  do 11 eexists.
  do 11 (split; [vm_compute; reflexivity|]).
  do 7 (split; [reflexivity|]).
  split; [by eapply (subseteq_app_l_eq _ _
             [ {| te.op_name := "equal";
                  te.op_sig := te.function Bool
                                 [LRef (Const ErasedT); LRef (Const ErasedT)] |} ])|].
  split; [by eapply (subseteq_app_l_eq _ _
             [ {| te.op_name := "default-construct";
                  te.op_sig := te.function Void [Pointer Void] |} ])|].
  split; [by eapply (subseteq_app_l_eq _ _
             [ {| te.op_name := "decrement";
                  te.op_sig := te.function Void [LRef ErasedT] |} ])|].
  split; [by eapply (subseteq_app_l_eq _ _
             [ {| te.op_name := "advance";
                  te.op_sig := te.function Void [LRef ErasedT; D] |};
               {| te.op_name := "distance";
                  te.op_sig := te.function D
                                 [LRef (Const ErasedT); LRef (Const ErasedT)] |} ])|].
  split; [intros o Ho; apply list_elem_of_singleton in Ho as ->; cbn;
          rewrite !elem_of_cons; repeat (first [left; reflexivity | right])|].
  split; [intros o Ho; apply list_elem_of_singleton in Ho as ->; cbn;
          rewrite !elem_of_cons; repeat (first [left; reflexivity | right])|].
  split; [apply (bool_decide_unpack _); vm_compute; exact I|].
  repeat split; reflexivity.
Qed.

(** C7: [operator--] exists only when the category of the wrapper
    derives from [std::bidirectional_iterator_tag]; decrementing a
    forward-level wrapper is rejected when the program is built, so no
    run-time call exists that could fail, and so is invoking any name
    that is not an operation of the concept. *)
Theorem decrement_exists_only_for_bidirectional Category R D :
  is_built (operator_dec obj ref Category R D) =
    std.is_base_of std.bidirectional_iterator_tag Category /\
  (std.is_base_of std.bidirectional_iterator_tag Category = false ->
   operator_dec obj ref Category R D =
     Rejected ["no match for 'operator--' (operand type is 'any_iterator')"]) /\
  is_built (operator_dec obj ref std.forward_iterator_tag R D) = false /\
  is_built (operator_inc obj ref std.forward_iterator_tag R D) = true /\
  (forall (C : te.concept) name,
      is_built (has_operation C name) =
        bool_decide (name ∈ te.names (te.c_ops C))) /\
  (forall C, Concept std.forward_iterator_tag R D = Built C ->
             is_built (has_operation C "decrement") = false).
Proof.
  split; [destruct Category; vm_compute; reflexivity|].
  split; [destruct Category; intros H; first [discriminate H | reflexivity]|].
  split; [vm_compute; reflexivity|]. split; [vm_compute; reflexivity|]. split.
  - intros C name. unfold has_operation.
    destruct (decide (name ∈ te.names (te.c_ops C))).
    + by rewrite bool_decide_eq_true_2.
    + by rewrite bool_decide_eq_false_2.
  - intros C HC. vm_compute in HC. by injection HC as <-.
Qed.

(** C3: the default concept maps are enabled by a predicate on the
    concrete type, decided when the program is built: the
    BidirectionalIterator map (binding "decrement" to [--self]) applies
    exactly when the iterator category of the type derives from
    [std::bidirectional_iterator_tag], and the RandomAccessIterator map
    (binding "advance" and "distance" to [std::advance] and
    [std::distance]) exactly when it derives from
    [std::random_access_iterator_tag]. *)
Theorem default_maps_enabled_by_iterator_category (T : cxx_iterator obj ref) :
  default_concept_map_BidirectionalIterator
      (BidirectionalIterator_name (reference_t T)) T =
    (if std.is_base_of std.bidirectional_iterator_tag
          (std.iterator_category (traits T))
     then Some [ ("decrement", Fn_void_T ref (fun self => pre_decrement T self)) ]
     else None) /\
  default_concept_map_RandomAccessIterator
      (RandomAccessIterator_name (reference_t T) (difference_t T)) T =
    (if std.is_base_of std.random_access_iterator_tag
          (std.iterator_category (traits T))
     then Some [ ("advance",
                  Fn_void_T_diff ref (fun self diff => std_advance T self diff));
                 ("distance",
                  Fn_diff_TT ref (fun first last => std_distance T first last)) ]
     else None) /\
  default_concept_map (BidirectionalIterator_name (reference_t T)) T =
    (if std.is_base_of std.bidirectional_iterator_tag
          (std.iterator_category (traits T))
     then [ ("decrement", Fn_void_T ref (pre_decrement T)) ] else []) /\
  default_concept_map
      (RandomAccessIterator_name (reference_t T) (difference_t T)) T =
    (if std.is_base_of std.random_access_iterator_tag
          (std.iterator_category (traits T))
     then [ ("advance", Fn_void_T_diff ref (std_advance T));
            ("distance", Fn_diff_TT ref (std_distance T)) ]
     else []) /\
  (forall B, BidirectionalIterator (reference_t T) = Built B ->
             is_built (make_vtable B T) =
             std.is_base_of std.bidirectional_iterator_tag
               (std.iterator_category (traits T))) /\
  (forall RA, RandomAccessIterator (reference_t T) (difference_t T) = Built RA ->
              is_built (make_vtable RA T) =
              std.is_base_of std.random_access_iterator_tag
                (std.iterator_category (traits T))).
Proof.
  split.
  { unfold default_concept_map_BidirectionalIterator, when.
    by rewrite decide_True. }
  split.
  { unfold default_concept_map_RandomAccessIterator, when.
    by rewrite decide_True. }
  split.
  { rewrite default_concept_map_of_BidirectionalIterator.
    by rewrite decide_True. }
  split.
  { rewrite default_concept_map_of_RandomAccessIterator.
    by rewrite decide_True. }
  split.
  - intros B HB.
    rewrite (make_vtable_is_built std.bidirectional_iterator_tag
               (reference_t T) Void B T HB).
    by rewrite bool_decide_eq_true_2.
  - intros RA HRA.
    rewrite (make_vtable_is_built std.random_access_iterator_tag
               (reference_t T) (difference_t T) RA T HRA).
    by rewrite !bool_decide_eq_true_2.
Qed.

(** C2: constructing the wrapper from a concrete iterator is rejected
    when the program is built unless the four compatibility constraints
    hold: value type and reference convertible, category derived from
    that of the wrapper, difference type the same.  Each constraint is
    checked on its own and its failure is reported by a message naming
    the property.  A forward-only iterator is rejected by a
    bidirectional wrapper and accepted by a forward one. *)
Theorem ctor_enforces_compatibility ba conv V Category R D It :
  (is_built (any_iterator_ctor ba conv V Category R D It) = true ->
   conv (std.value_type (traits It)) V = true /\
   conv (std.reference (traits It)) R = true /\
   std.is_base_of Category (std.iterator_category (traits It)) = true /\
   std.is_same D (std.difference_type (traits It)) = true) /\
  (value_type_message
     ∈ diagnostics_of (any_iterator_ctor ba conv V Category R D It) <->
   conv (std.value_type (traits It)) V = false) /\
  (reference_message
     ∈ diagnostics_of (any_iterator_ctor ba conv V Category R D It) <->
   conv (std.reference (traits It)) R = false) /\
  (iterator_category_message
     ∈ diagnostics_of (any_iterator_ctor ba conv V Category R D It) <->
   std.is_base_of Category (std.iterator_category (traits It)) = false) /\
  (difference_type_message
     ∈ diagnostics_of (any_iterator_ctor ba conv V Category R D It) <->
   std.is_same D (std.difference_type (traits It)) = false) /\
  (fun message =>
     (fun property => mentions property message)
       <$> ["'value_type'"; "'reference'"; "'iterator_category'";
            "'difference_type'"])
    <$> [value_type_message; reference_message; iterator_category_message;
         difference_type_message]
  = [ [true; false; false; false]; [false; true; false; false];
      [false; false; true; false]; [false; false; false; true] ] /\
  (std.iterator_category (traits It) = std.forward_iterator_tag ->
   conv (std.value_type (traits It)) V = true ->
   conv (std.reference (traits It)) R = true ->
   R = reference_t It -> D = difference_t It ->
   is_built (any_iterator_ctor ba conv V std.bidirectional_iterator_tag R D It)
     = false /\
   iterator_category_message
     ∈ diagnostics_of
         (any_iterator_ctor ba conv V std.bidirectional_iterator_tag R D It) /\
   is_built (any_iterator_ctor ba conv V std.forward_iterator_tag R D It)
     = true).
Proof.
  pose proof (static_asserts_report conv V Category R D It)
    as (Hv & Hr & Hc & Hd).
  assert (Hmem : forall (msg : string) (chk : bool),
    (exists s, msg = "T" +:+ s) ->
    bool_decide (msg ∈ ctor_static_asserts conv V Category R D It) = negb chk ->
    msg ∈ diagnostics_of (any_iterator_ctor ba conv V Category R D It) <->
    chk = false).
  { intros msg chk [s ->] Hb. rewrite any_iterator_ctor_diagnostics, elem_of_app.
    split.
    - intros [Hin|Hin].
      + apply poly_ctor_diagnostics in Hin as [[n Hn]|Hn]; simpl in Hn;
          discriminate Hn.
      + rewrite (bool_decide_eq_true_2 _ Hin) in Hb. by destruct chk.
    - intros ->. right. by apply (bool_decide_eq_true_1 _). }
  split.
  { rewrite any_iterator_ctor_is_built. intros [_ Hs]%andb_true_iff.
    apply bool_decide_eq_true_1 in Hs. by apply static_asserts_checks. }
  split; [apply Hmem; [eexists; reflexivity|done]|].
  split; [apply Hmem; [eexists; reflexivity|done]|].
  split; [apply Hmem; [eexists; reflexivity|done]|].
  split; [apply Hmem; [eexists; reflexivity|done]|].
  split; [vm_compute; reflexivity|].
  intros Hcat Hcv Hcr HR HD.
  split; [|split].
  - rewrite any_iterator_ctor_is_built. apply andb_false_iff. right.
    apply bool_decide_eq_false_2. intros Hs.
    apply static_asserts_checks in Hs as (_ & _ & Hs & _).
    rewrite Hcat in Hs. discriminate Hs.
  - rewrite any_iterator_ctor_diagnostics, elem_of_app. right.
    apply (bool_decide_eq_true_1 _).
    destruct (static_asserts_report conv V std.bidirectional_iterator_tag R D It)
      as (_ & _ & -> & _).
    by rewrite Hcat.
  - rewrite any_iterator_ctor_is_built. apply andb_true_iff. split.
    + destruct (Concept_built std.forward_iterator_tag R D) as [C HC]; [done|].
      rewrite HC, poly_ctor_is_built.
      rewrite (make_vtable_is_built std.forward_iterator_tag R D C It HC).
      by rewrite bool_decide_eq_true_2.
    + apply bool_decide_eq_true_2. apply static_asserts_checks.
      rewrite Hcat, HD. repeat split; try done.
      unfold std.is_same. by apply bool_decide_eq_true_2.
Qed.

(** ** Further properties of the header *)

Lemma static_asserts_bool conv V Category R D It :
  bool_decide (ctor_static_asserts conv V Category R D It = []) =
  conv (std.value_type (traits It)) V
  && conv (std.reference (traits It)) R
  && std.is_base_of Category (std.iterator_category (traits It))
  && std.is_same D (std.difference_type (traits It)).
Proof.
  unfold ctor_static_asserts, static_assert, iterator_category, value_type,
    reference, difference_type.
  by destruct (conv _ V), (conv _ R), (std.is_base_of _ _), (std.is_same _ _).
Qed.

Lemma any_iterator_ctor_is_built_iff ba conv V Category R D It :
  is_built (any_iterator_ctor ba conv V Category R D It) =
  bool_decide (Category <> std.output_iterator_tag)
  && conv (std.value_type (traits It)) V
  && conv (std.reference (traits It)) R
  && std.is_base_of Category (std.iterator_category (traits It))
  && std.is_same D (std.difference_type (traits It))
  && bool_decide (R = reference_t It).
Proof.
  rewrite any_iterator_ctor_is_built, static_asserts_bool.
  destruct (decide (Category = std.output_iterator_tag)) as [->|Hvalid].
  { reflexivity. }
  destruct (Concept_built Category R D Hvalid) as [C HC].
  rewrite HC, poly_ctor_is_built, (make_vtable_is_built Category R D C It HC).
  rewrite (bool_decide_eq_true_2 (Category <> _)) by done.
  unfold when, difference_t, std.is_same.
  destruct Category; try done;
    destruct (conv _ V), (conv _ R), (std.is_base_of _ _) eqn:Hb,
      (bool_decide (D = _)), (bool_decide (R = _)); try reflexivity.
  all: destruct (std.iterator_category (traits It)); try discriminate Hb;
       reflexivity.
Qed.

(** X1: a category other than the four iterator tags with a
    specialization of [iterator_category_to_concept] names no concept,
    so neither the constructor nor any operator instantiates; for each
    of the four, [operator++], [operator*], [operator==] and
    [operator!=] all instantiate. *)
Theorem members_instantiate_exactly_for_supported_categories
    ba conv V NDEBUG Category R D It :
  is_built (Concept Category R D)
    = bool_decide (Category <> std.output_iterator_tag) /\
  is_built (operator_inc obj ref Category R D)
    = bool_decide (Category <> std.output_iterator_tag) /\
  is_built (operator_star obj ref Category R D)
    = bool_decide (Category <> std.output_iterator_tag) /\
  is_built (operator_eq obj ref NDEBUG Category R D)
    = bool_decide (Category <> std.output_iterator_tag) /\
  is_built (operator_ne obj ref NDEBUG Category R D)
    = bool_decide (Category <> std.output_iterator_tag) /\
  is_built (any_iterator_ctor ba conv V std.output_iterator_tag R D It) = false /\
  is_built (operator_dec obj ref std.output_iterator_tag R D) = false.
Proof.
  split; [destruct Category; vm_compute; reflexivity|].
  split; [destruct Category; vm_compute; reflexivity|].
  split; [destruct Category; vm_compute; reflexivity|].
  split; [destruct Category, NDEBUG; vm_compute; reflexivity|].
  split; [destruct Category, NDEBUG; vm_compute; reflexivity|].
  split; [by rewrite any_iterator_ctor_is_built|reflexivity].
Qed.

(** X2: the converting constructor instantiates exactly when the
    category is one of the four supported ones, the four static
    assertions hold, and the [Reference] of the wrapper is the very
    reference type of the iterator: the default concept map that binds
    "increment" and "dereference" is declared for
    [Iterator<reference_t<T>>] only, so a reference that is merely
    convertible leaves those operations unbound. *)
Theorem ctor_instantiates_exactly_when ba conv V Category R D It :
  is_built (any_iterator_ctor ba conv V Category R D It) =
  bool_decide (Category <> std.output_iterator_tag)
  && conv (std.value_type (traits It)) V
  && conv (std.reference (traits It)) R
  && std.is_base_of Category (std.iterator_category (traits It))
  && std.is_same D (std.difference_type (traits It))
  && bool_decide (R = reference_t It).
Proof. apply any_iterator_ctor_is_built_iff. Qed.

Lemma is_base_of_trans (A B C : std.iterator_tag) :
  std.is_base_of A B = true -> std.is_base_of B C = true ->
  std.is_base_of A C = true.
Proof. by destruct A, B, C. Qed.

(** X3: erasure is monotone in the category: an iterator that can be
    erased into a wrapper of some category can be erased into the
    wrapper of every category that one derives from. *)
Theorem erasure_at_a_base_category ba conv V Base Derived R D It :
  std.is_base_of Base Derived = true ->
  Base <> std.output_iterator_tag ->
  is_built (any_iterator_ctor ba conv V Derived R D It) = true ->
  is_built (any_iterator_ctor ba conv V Base R D It) = true.
Proof.
  intros Hbase Hvalid. rewrite !any_iterator_ctor_is_built_iff.
  rewrite (bool_decide_eq_true_2 (Base <> _)) by done.
  intros H. repeat (apply andb_true_iff in H as [H ?]).
  repeat (apply andb_true_iff; split); try done.
  by apply (is_base_of_trans Base Derived).
Qed.

Lemma compare_same_machine NDEBUG m a b r m' :
  compare NDEBUG a b m = Ok (r, m') -> m' = m.
Proof.
  unfold mbind at 1, exec_bind at 1, object_at at 1.
  destruct (objects m !! a) as [wa|]; [|discriminate].
  unfold mbind at 1, exec_bind at 1, object_at at 1.
  destruct (objects m !! b) as [wb|]; [|discriminate].
  unfold mbind at 1, exec_bind at 1, virtual_ at 1.
  destruct (binding "equal" (vt_slots (vptr (poly_ wa)))) as [ca|]; [|discriminate].
  unfold mret at 1, exec_ret at 1.
  unfold mbind at 1, exec_bind at 1, virtual_ at 1.
  destruct (binding "equal" (vt_slots (vptr (poly_ wb)))) as [cb|]; [|discriminate].
  unfold mret at 1, exec_ret at 1.
  unfold mbind at 1, exec_bind at 1, assert.
  destruct NDEBUG; [|destruct (fnptr_eqb _ _); [|discriminate]].
  all: unfold call_bool_TT; simpl; destruct ca; try discriminate.
  all: unfold mbind at 1, exec_bind at 1.
  all: destruct (load (get a (poly_ wa)) m) as [[oa m1]| |] eqn:Hla;
       try discriminate.
  all: pose proof (load_same _ _ _ _ Hla) as ->.
  all: unfold mbind at 1, exec_bind at 1, as_T at 1; simpl.
  all: destruct (decide (dynamic_type oa = vt_type (vptr (poly_ wa))));
       [|discriminate].
  all: unfold mret at 1, exec_ret at 1.
  all: unfold mbind at 1, exec_bind at 1.
  all: destruct (load (get b (poly_ wb)) m) as [[ob m2]| |] eqn:Hlb;
       try discriminate.
  all: pose proof (load_same _ _ _ _ Hlb) as ->.
  all: unfold mbind at 1, exec_bind at 1, as_T at 1; simpl.
  all: destruct (decide (dynamic_type ob = vt_type (vptr (poly_ wa))));
       [|discriminate].
  all: unfold mret, exec_ret; intros H; by injection H as _ <-.
Qed.

Lemma exec_bind_Ok {A B} (c : exec obj ref A) (f : A -> exec obj ref B) m r :
  (c ≫= f) m = Ok r -> exists v m1, c m = Ok (v, m1) /\ f v m1 = Ok r.
Proof.
  unfold mbind, exec_bind. destruct (c m) as [[v m1]| |]; try discriminate.
  eauto.
Qed.

Lemma operator_ne_inv NDEBUG Category R D ne :
  operator_ne obj ref NDEBUG Category R D = Built ne ->
  ne = (fun a b => r ← compare NDEBUG a b; mret (negb r)).
Proof.
  unfold operator_ne. intros H.
  apply build_bind_Built in H as (eq & Heq & H).
  apply operator_eq_inv in Heq as (-> & _). by injection H as <-.
Qed.

(** X4: [operator==] and [operator!=] take their operands by reference
    to const: whenever they return, no wrapper and no heap block has
    changed. *)
Theorem comparison_changes_nothing NDEBUG Category R D op a b m r m' :
  operator_eq obj ref NDEBUG Category R D = Built op \/
  operator_ne obj ref NDEBUG Category R D = Built op ->
  op a b m = Ok (r, m') -> m' = m.
Proof.
  intros [H|H] Hrun.
  - apply operator_eq_inv in H as (-> & _). by apply compare_same_machine in Hrun.
  - apply operator_ne_inv in H as ->.
    apply exec_bind_Ok in Hrun as (r0 & m0 & Hc & Hrun).
    apply compare_same_machine in Hc as ->.
    unfold mret, exec_ret in Hrun. by injection Hrun as _ <-.
Qed.

(** X5: the assertion of [operator==] is symmetric: for two wrappers
    holding values, [a == b] fails the assertion exactly when [b == a]
    does. *)
Theorem equality_assertion_is_symmetric NDEBUG Category R D eq a b m :
  operator_eq obj ref NDEBUG Category R D = Built eq ->
  is_Some (held m a) -> is_Some (held m b) ->
  eq a b m = AssertionFailed <-> eq b a m = AssertionFailed.
Proof.
  intros Heq [[vta oa] Ha] [[vtb ob] Hb].
  apply operator_eq_inv in Heq as (-> & _).
  rewrite (compare_held NDEBUG m a b _ _ _ _ Ha Hb).
  rewrite (compare_held NDEBUG m b a _ _ _ _ Hb Ha).
  destruct (binding "equal" (vt_slots vta)) as [ca|],
           (binding "equal" (vt_slots vtb)) as [cb|]; try done.
  destruct NDEBUG; simpl.
  - split; intros H; exfalso; repeat case_match; discriminate.
  - destruct (decide (vt_type vta = vt_type vtb)) as [Ht|Ht].
    + rewrite !bool_decide_eq_true_2 by done.
      split; intros H; exfalso; repeat case_match; discriminate.
    + by rewrite !bool_decide_eq_false_2 by done.
Qed.

Lemma machine_eq m m' : objects m = objects m' -> heap m = heap m' -> m = m'.
Proof. destruct m, m'; simpl. by intros -> ->. Qed.

Lemma any_iterator_eta (w : any_iterator obj ref) : {| poly_ := poly_ w |} = w.
Proof. by destruct w. Qed.

Lemma friend_swap_run m a b wa wb :
  objects m !! a = Some wa -> objects m !! b = Some wb ->
  friend_swap a b m =
    Ok (tt, {| objects := <[b := wa]> (<[a := wb]> (objects m));
               heap := heap m |}).
Proof.
  intros Ha Hb. unfold friend_swap, swap, poly_swap. unfold_exec.
  rewrite Ha, Hb. simpl. by rewrite !any_iterator_eta.
Qed.

(** X6: [swap] is total on existing wrappers, symmetric in its
    operands, and its own inverse; swapping a wrapper with itself
    changes nothing, and swapping through a dangling reference is
    undefined. *)
Theorem swap_is_a_symmetric_involution m a b :
  (is_Some (objects m !! a) -> is_Some (objects m !! b) ->
   exists m', friend_swap a b m = Ok (tt, m') /\
              friend_swap a b m' = Ok (tt, m)) /\
  friend_swap a b m = friend_swap b a m /\
  swap a b m = friend_swap a b m /\
  (is_Some (objects m !! a) -> friend_swap a a m = Ok (tt, m)) /\
  (objects m !! a = None \/ objects m !! b = None ->
   friend_swap a b m = Undefined).
Proof.
  split; [|split; [|split; [|split]]].
  - intros [wa Ha] [wb Hb]. eexists. split; [by apply friend_swap_run|].
    erewrite friend_swap_run.
    + f_equal. f_equal. apply machine_eq; simpl; [|done].
      apply map_eq. intros i.
      destruct (decide (i = b)) as [->|Hib];
        [by rewrite lookup_insert_eq|].
      rewrite lookup_insert_ne by done.
      destruct (decide (i = a)) as [->|Hia];
        [by rewrite lookup_insert_eq|].
      by rewrite !lookup_insert_ne by done.
    + simpl. destruct (decide (a = b)) as [->|Hne].
      * rewrite lookup_insert_eq. rewrite Ha in Hb. by injection Hb as ->.
      * rewrite lookup_insert_ne by done. apply lookup_insert_eq.
    + simpl. apply lookup_insert_eq.
  - destruct (objects m !! a) as [wa|] eqn:Ha;
      destruct (objects m !! b) as [wb|] eqn:Hb.
    + rewrite (friend_swap_run m a b wa wb Ha Hb),
        (friend_swap_run m b a wb wa Hb Ha).
      f_equal. f_equal. apply machine_eq; simpl; [|done].
      destruct (decide (a = b)) as [->|Hne].
      * rewrite Ha in Hb. by injection Hb as ->.
      * by apply insert_insert_ne.
    + unfold friend_swap, swap, poly_swap. unfold_exec. by rewrite Ha, Hb.
    + unfold friend_swap, swap, poly_swap. unfold_exec. rewrite Ha, Hb.
      simpl. by rewrite Ha.
    + unfold friend_swap, swap, poly_swap. unfold_exec. by rewrite Ha, Hb.
  - reflexivity.
  - intros [wa Ha]. rewrite (friend_swap_run m a a wa wa Ha Ha).
    f_equal. f_equal. apply machine_eq; simpl; [|done].
    rewrite insert_insert_eq. by apply insert_id.
  - intros [Ha|Hb]; unfold friend_swap, swap, poly_swap; unfold_exec.
    + by rewrite Ha.
    + destruct (objects m !! a); simpl; [|done]. by rewrite Hb.
Qed.

Lemma only_value_changed_trans m m1 m2 this :
  only_value_changed m m1 this -> only_value_changed m1 m2 this ->
  only_value_changed m m2 this.
Proof.
  intros (Ho1 & (w & w1 & Hw & Hw1 & Hv1 & Hp1 & Hh1) & Hd1)
         (Ho2 & (w1' & w2 & Hw1' & Hw2 & Hv2 & Hp2 & Hh2) & Hd2).
  rewrite Hw1 in Hw1'. injection Hw1' as <-.
  split; [|split].
  - intros c Hc. by rewrite Ho2, Ho1.
  - exists w, w2. split; [done|]. split; [done|].
    split; [by rewrite Hv2|]. split.
    + destruct (storage_ (poly_ w)), (storage_ (poly_ w1)),
        (storage_ (poly_ w2)); simpl in *; try done. congruence.
    + intros q Hq. rewrite Hh2, Hh1; [done|done|].
      intros Hq1. rewrite Hq1 in Hp1.
      destruct (storage_ (poly_ w)); simpl in Hp1; [done|]. congruence.
  - by rewrite Hd2.
Qed.

Lemma only_value_changed_same m m' this :
  only_value_changed m m' this -> is_Some (held m this) ->
  held m' this = held m this -> m' = m.
Proof.
  intros (Ho & (w & w' & Hw & Hw' & Hv & Hp & Hh) & Hd) [[vt o] Hs] Heq.
  destruct w as [[s vt0]], w' as [[s' vt0']]. simpl in *. subst vt0'.
  rewrite (held_lookup m' this _ _ Hw'), (held_lookup m this _ _ Hw) in Heq.
  rewrite (held_lookup m this _ _ Hw) in Hs.
  destruct s as [o0|p], s' as [o0'|p']; simpl in Hp; try done.
  - injection Heq as ->. apply machine_eq.
    + apply map_eq. intros i. destruct (decide (i = this)) as [->|Hi].
      * by rewrite Hw, Hw'.
      * by apply Ho.
    + apply map_eq. intros q. by apply Hh.
  - subst p'. apply machine_eq.
    + apply map_eq. intros i. destruct (decide (i = this)) as [->|Hi].
      * by rewrite Hw, Hw'.
      * by apply Ho.
    + apply map_eq. intros q. destruct (decide (q = p)) as [->|Hq].
      * destruct (heap m !! p) as [o1|]; [|discriminate].
        destruct (heap m' !! p) as [o1'|]; [|discriminate].
        simpl in Heq. by injection Heq as ->.
      * apply Hh. congruence.
Qed.

Lemma invoke_ref_T_inv name m this r m' :
  invoke_ref_T name this m = Ok (r, m') -> only_value_changed m m' this.
Proof.
  unfold_exec. intros H.
  destruct (objects m !! this) as [w|] eqn:Hw; [|discriminate].
  destruct (binding name (vt_slots (vptr (poly_ w)))) as [c|] eqn:Hc;
    [|discriminate].
  unfold call_ref_T in H; simpl in H. destruct c; try discriminate.
  unfold_exec.
  destruct (load (get this (poly_ w)) m) as [[o m1]| |] eqn:Hl; try discriminate.
  pose proof (load_same _ _ _ _ Hl) as ->.
  simpl in H. destruct (decide (dynamic_type o = vt_type (vptr (poly_ w))));
    [|discriminate].
  destruct (store_held m this w o (retype o (f (representation o)).2) Hw Hl)
    as (m2 & Hs & Hh & Hf).
  unfold_exec. simpl in H. rewrite Hs in H. by injection H as _ <-.
Qed.

(** X7: on a bidirectional wrapper, where the native iterator can be
    incremented and [--] then leads back to where it was, [++w]
    followed by [--w] restores the whole machine. *)
Theorem increment_then_decrement_restores Category R D inc dec m this It x y :
  operator_inc obj ref Category R D = Built inc ->
  operator_dec obj ref Category R D = Built dec ->
  wraps Category R D m this It x ->
  native_increment It x = Some y ->
  native_decrement It y = Some x ->
  exists m1, inc this m = Ok (this, m1) /\
             wraps Category R D m1 this It y /\
             dec this m1 = Ok (this, m).
Proof.
  intros Hinc Hdec Hw Hy Hx.
  unfold native_increment in Hy. destruct (incrementable It x); [|discriminate].
  injection Hy as <-.
  unfold native_decrement in Hx. destruct (decrementable It _); [|discriminate].
  injection Hx as Hround.
  apply operator_inc_inv in Hinc as (-> & _).
  apply operator_dec_inv in Hdec as (-> & Hb & _).
  destruct (increment_wraps _ _ _ _ _ _ _ Hw) as (m1 & Hrun1 & Hw1 & Hf1).
  destruct (decrement_wraps _ _ _ _ _ _ _ Hb Hw1) as (m2 & Hrun2 & Hw2 & Hf2).
  exists m1. split; [done|]. split; [done|]. rewrite Hrun2. f_equal. f_equal.
  rewrite Hround in Hw2.
  destruct Hw as (C & vt & HC & Hvt & Hh).
  destruct Hw2 as (C2 & vt2 & HC2 & Hvt2 & Hh2).
  rewrite HC in HC2. injection HC2 as <-. rewrite Hvt in Hvt2.
  injection Hvt2 as <-.
  apply (only_value_changed_same m m2 this).
  - by apply (only_value_changed_trans m m1 m2).
  - by rewrite Hh.
  - by rewrite Hh, Hh2.
Qed.

(** X8: where the native iterator can be dereferenced and its
    [operator*] leaves it as it is, dereferencing the wrapper returns
    the native value and leaves the whole machine as it is. *)
Theorem dereference_of_a_const_indirection_is_pure
    Category R D star m this It x v :
  operator_star obj ref Category R D = Built star ->
  wraps Category R D m this It x ->
  native_dereference It x = Some v ->
  (indirection It x).2 = x ->
  star this m = Ok (v, m).
Proof.
  intros Hstar Hw Hv Hsame. apply operator_star_inv in Hstar as (-> & _).
  unfold native_dereference in Hv. destruct (dereferenceable It x); [|discriminate].
  injection Hv as <-.
  destruct (dereference_wraps _ _ _ _ _ _ _ Hw) as (m1 & Hrun & Hw1 & Hf).
  rewrite Hrun. f_equal. f_equal. rewrite Hsame in Hw1.
  destruct Hw as (C & vt & HC & Hvt & Hh).
  destruct Hw1 as (C1 & vt1 & HC1 & Hvt1 & Hh1).
  rewrite HC in HC1. injection HC1 as <-. rewrite Hvt in Hvt1.
  injection Hvt1 as <-.
  apply (only_value_changed_same m m1 this); [done| |].
  - by rewrite Hh.
  - by rewrite Hh, Hh1.
Qed.

Lemma only_value_changed_other m m' this other :
  only_value_changed m m' this -> other <> this ->
  (forall q, placement m other = Some (Remote obj q) ->
             placement m this <> Some (Remote obj q)) ->
  held m' other = held m other /\ placement m' other = placement m other.
Proof.
  intros (Ho & (w & w' & Hw & Hw' & Hv & Hp & Hh) & Hd) Hne Hsep.
  specialize (Ho other Hne). unfold placement in *. rewrite Ho.
  split; [|done].
  destruct (objects m !! other) as [[[s vt]]|] eqn:Hother.
  - rewrite (held_lookup m' other s vt Ho), (held_lookup m other s vt Hother).
    destruct s as [o|q]; [done|]. rewrite Hh; [done|].
    intros Hq. apply (Hsep q); [done|]. rewrite Hw. simpl. by rewrite Hq.
  - unfold held. by rewrite Ho, Hother.
Qed.

(** X9: value semantics of the wrappers: [++a], [--a] and [*a] leave
    what any other wrapper holds, and where it holds it, unchanged, as
    long as the two do not own the same heap block. *)
Theorem operations_leave_other_wrappers_alone Category R D this other m :
  other <> this ->
  (forall q, placement m other = Some (Remote obj q) ->
             placement m this <> Some (Remote obj q)) ->
  (forall op r m',
      operator_inc obj ref Category R D = Built op \/
      operator_dec obj ref Category R D = Built op ->
      op this m = Ok (r, m') ->
      held m' other = held m other /\ placement m' other = placement m other) /\
  (forall star r m',
      operator_star obj ref Category R D = Built star ->
      star this m = Ok (r, m') ->
      held m' other = held m other /\ placement m' other = placement m other).
Proof.
  intros Hne Hsep. split.
  - intros op r m' [H|H] Hrun.
    + apply operator_inc_inv in H as (-> & _).
      apply invoke_void_T_inv in Hrun as (_ & Hf & _).
      by apply (only_value_changed_other m m' this).
    + apply operator_dec_inv in H as (-> & _).
      apply invoke_void_T_inv in Hrun as (_ & Hf & _).
      by apply (only_value_changed_other m m' this).
  - intros star r m' H Hrun. apply operator_star_inv in H as (-> & _).
    apply invoke_ref_T_inv in Hrun.
    by apply (only_value_changed_other m m' this).
Qed.

End Properties.

(** * The claims at concrete inputs *)

(** C1 as it was stated fails at the container length: the native
    iterator has no value to yield at the end of the sequence. *)
Lemma erased_increment_dereference_fails_at_the_end :
  ~ exists v mk inc star m0 m1 m2,
      native_nth (forward_list_iterator numbers) (length numbers) 0 = Some v /\
      forward_any_iterator (forward_list_iterator numbers) = Built mk /\
      operator_inc nat Z std.forward_iterator_tag (LRef Int) std.ptrdiff_t
        = Built inc /\
      operator_star nat Z std.forward_iterator_tag (LRef Int) std.ptrdiff_t
        = Built star /\
      mk 1%positive 0 empty_machine = Ok (tt, m0) /\
      repeat_inc inc (length numbers) 1%positive m0 = Ok (1%positive, m1) /\
      star 1%positive m1 = Ok (v, m2).
Proof.
  intros (v & mk & inc & star & m0 & m1 & m2 & Hnative & _).
  vm_compute in Hnative. discriminate Hnative.
Qed.

Lemma erased_increment_dereference_agree_with_native_witness :
  exists mk inc star,
    forward_any_iterator (forward_list_iterator numbers) = Built mk /\
    operator_inc nat Z std.forward_iterator_tag (LRef Int) std.ptrdiff_t
      = Built inc /\
    operator_star nat Z std.forward_iterator_tag (LRef Int) std.ptrdiff_t
      = Built star /\
    (native_nth (forward_list_iterator numbers) 0 0 = Some 10%Z /\
     exists m0 m1 m2,
       mk 1%positive 0 empty_machine = Ok (tt, m0) /\
       repeat_inc inc 0 1%positive m0 = Ok (1%positive, m1) /\
       star 1%positive m1 = Ok (10%Z, m2)) /\
    (native_nth (forward_list_iterator numbers) 1 0 = Some 20%Z /\
     exists m0 m1 m2,
       mk 1%positive 0 empty_machine = Ok (tt, m0) /\
       repeat_inc inc 1 1%positive m0 = Ok (1%positive, m1) /\
       star 1%positive m1 = Ok (20%Z, m2)) /\
    (native_nth (forward_list_iterator numbers) 2 0 = Some 30%Z /\
     exists m0 m1 m2,
       mk 1%positive 0 empty_machine = Ok (tt, m0) /\
       repeat_inc inc 2 1%positive m0 = Ok (1%positive, m1) /\
       star 1%positive m1 = Ok (30%Z, m2)).
Proof.
  eexists _, _, _. split; [vm_compute; reflexivity|].
  split; [reflexivity|]. split; [reflexivity|].
  split; [|split].
  - split; [vm_compute; reflexivity|].
    destruct (erased_increment_dereference_agree_with_native 16 convertible_demo
                Int std.forward_iterator_tag (LRef Int) std.ptrdiff_t
                (forward_list_iterator numbers) _ 0 1%positive 0 empty_machine
                10%Z eq_refl eq_refl)
      as (inc & star & m0 & m1 & m2 & Hinc & Hstar & Hmk & Hrep & Hder & _).
    injection Hinc as <-. injection Hstar as <-.
    exists m0, m1, m2. split; [exact Hmk|]. split; [exact Hrep|exact Hder].
  - split; [vm_compute; reflexivity|].
    destruct (erased_increment_dereference_agree_with_native 16 convertible_demo
                Int std.forward_iterator_tag (LRef Int) std.ptrdiff_t
                (forward_list_iterator numbers) _ 1 1%positive 0 empty_machine
                20%Z eq_refl eq_refl)
      as (inc & star & m0 & m1 & m2 & Hinc & Hstar & Hmk & Hrep & Hder & _).
    injection Hinc as <-. injection Hstar as <-.
    exists m0, m1, m2. split; [exact Hmk|]. split; [exact Hrep|exact Hder].
  - split; [vm_compute; reflexivity|].
    destruct (erased_increment_dereference_agree_with_native 16 convertible_demo
                Int std.forward_iterator_tag (LRef Int) std.ptrdiff_t
                (forward_list_iterator numbers) _ 2 1%positive 0 empty_machine
                30%Z eq_refl eq_refl)
      as (inc & star & m0 & m1 & m2 & Hinc & Hstar & Hmk & Hrep & Hder & _).
    injection Hinc as <-. injection Hstar as <-.
    exists m0, m1, m2. split; [exact Hmk|]. split; [exact Hrep|exact Hder].
Defined.


Lemma ctor_enforces_compatibility_witness :
  (convertible_demo Int Int = true /\
   convertible_demo (LRef Int) (LRef Int) = true /\
   std.is_base_of std.forward_iterator_tag std.forward_iterator_tag = true /\
   std.is_same std.ptrdiff_t std.ptrdiff_t = true) /\
  (is_built (any_iterator_ctor 16 convertible_demo Int
               std.bidirectional_iterator_tag (LRef Int) std.ptrdiff_t
               (forward_list_iterator numbers)) = false /\
   iterator_category_message
     ∈ diagnostics_of
         (any_iterator_ctor 16 convertible_demo Int
            std.bidirectional_iterator_tag (LRef Int) std.ptrdiff_t
            (forward_list_iterator numbers)) /\
   is_built (any_iterator_ctor 16 convertible_demo Int
               std.forward_iterator_tag (LRef Int) std.ptrdiff_t
               (forward_list_iterator numbers)) = true).
Proof.
  destruct (ctor_enforces_compatibility 16 convertible_demo Int
              std.forward_iterator_tag (LRef Int) std.ptrdiff_t
              (forward_list_iterator numbers))
    as (Hnec & _ & _ & _ & _ & _ & Hscenario).
  split.
  - apply Hnec. vm_compute. reflexivity.
  - apply Hscenario; vm_compute; reflexivity.
Defined.

Lemma default_maps_enabled_by_iterator_category_witness :
  exists B RA,
    BidirectionalIterator (LRef Int) = Built B /\
    RandomAccessIterator (LRef Int) std.ptrdiff_t = Built RA /\
    is_built (make_vtable B (forward_list_iterator numbers)) = false /\
    is_built (make_vtable RA (forward_list_iterator numbers)) = false /\
    is_built (make_vtable B (int_pointer numbers)) = true /\
    is_built (make_vtable RA (int_pointer numbers)) = true.
Proof.
  eexists _, _. split; [vm_compute; reflexivity|].
  split; [vm_compute; reflexivity|].
  destruct (default_maps_enabled_by_iterator_category
              (forward_list_iterator numbers)) as (_ & _ & _ & _ & HB & HRA).
  destruct (default_maps_enabled_by_iterator_category
              (int_pointer numbers)) as (_ & _ & _ & _ & HB' & HRA').
  split; [apply HB; vm_compute; reflexivity|].
  split; [apply HRA; vm_compute; reflexivity|].
  split; [apply HB'; vm_compute; reflexivity|].
  apply HRA'; vm_compute; reflexivity.
Defined.

Lemma decrement_exists_only_for_bidirectional_witness :
  operator_dec nat Z std.forward_iterator_tag (LRef Int) std.ptrdiff_t =
    Rejected ["no match for 'operator--' (operand type is 'any_iterator')"] /\
  exists C, Concept std.forward_iterator_tag (LRef Int) std.ptrdiff_t = Built C /\
            is_built (has_operation C "decrement") = false.
Proof.
  destruct (@decrement_exists_only_for_bidirectional nat Z
              std.forward_iterator_tag (LRef Int) std.ptrdiff_t)
    as (_ & Hrej & _ & _ & _ & Hname).
  split.
  - apply Hrej. vm_compute. reflexivity.
  - eexists. split; [vm_compute; reflexivity|].
    apply Hname. vm_compute. reflexivity.
Defined.


Lemma not_equal_is_negated_equal_witness :
  exists eq ne,
    operator_eq nat Z false std.forward_iterator_tag (LRef Int) std.ptrdiff_t
      = Built eq /\
    operator_ne nat Z false std.forward_iterator_tag (LRef Int) std.ptrdiff_t
      = Built ne /\
    eq 1%positive 3%positive demo_machine = Ok (false, demo_machine) /\
    ne 1%positive 3%positive demo_machine = Ok (true, demo_machine) /\
    eq 1%positive 2%positive demo_machine = AssertionFailed /\
    ne 1%positive 2%positive demo_machine = AssertionFailed.
Proof.
  eexists _, _. split; [reflexivity|]. split; [reflexivity|].
  split; [vm_compute; reflexivity|]. split.
  - etransitivity;
      [apply (not_equal_is_negated_equal false std.forward_iterator_tag (LRef Int)
                std.ptrdiff_t _ _ 1%positive 3%positive demo_machine
                eq_refl eq_refl)|].
    vm_compute. reflexivity.
  - split; [vm_compute; reflexivity|].
    etransitivity;
      [apply (not_equal_is_negated_equal false std.forward_iterator_tag (LRef Int)
                std.ptrdiff_t _ _ 1%positive 2%positive demo_machine
                eq_refl eq_refl)|].
    vm_compute. reflexivity.
Defined.

Lemma demo_machine_wraps :
  wraps std.forward_iterator_tag (LRef Int) std.ptrdiff_t demo_machine 1%positive
    (forward_list_iterator numbers) 0 /\
  wraps std.forward_iterator_tag (LRef Int) std.ptrdiff_t demo_machine 2%positive
    (oversized_iterator numbers) 1 /\
  wraps std.forward_iterator_tag (LRef Int) std.ptrdiff_t demo_machine 3%positive
    (forward_list_iterator numbers) 1.
Proof.
  repeat split; eexists _, _;
    (split; [vm_compute; reflexivity|]); split; vm_compute; reflexivity.
Qed.

Lemma equality_asserts_identical_binding_then_invokes_it_witness :
  exists eq eq_ndebug,
    operator_eq nat Z false std.forward_iterator_tag (LRef Int) std.ptrdiff_t
      = Built eq /\
    operator_eq nat Z true std.forward_iterator_tag (LRef Int) std.ptrdiff_t
      = Built eq_ndebug /\
    eq 1%positive 3%positive demo_machine = Ok (false, demo_machine) /\
    eq 1%positive 2%positive demo_machine = AssertionFailed /\
    eq_ndebug 1%positive 2%positive demo_machine = Undefined.
Proof.
  destruct demo_machine_wraps as (W1 & W2 & W3).
  eexists _, _. split; [reflexivity|]. split; [reflexivity|].
  split; [|split].
  - destruct (equality_asserts_identical_binding_then_invokes_it false
                std.forward_iterator_tag (LRef Int) std.ptrdiff_t _
                demo_machine 1%positive 3%positive _ _ 0 1 eq_refl W1 W3)
      as (wa & wb & fa & fb & Hoa & Hob & Hfa & Hfb & _ & Hsame & _).
    apply Hsame.
    vm_compute in Hoa, Hob. injection Hoa as <-. injection Hob as <-.
    vm_compute in Hfa, Hfb. injection Hfa as <-. injection Hfb as <-.
    vm_compute. reflexivity.
  - destruct (equality_asserts_identical_binding_then_invokes_it false
                std.forward_iterator_tag (LRef Int) std.ptrdiff_t _
                demo_machine 1%positive 2%positive _ _ 0 1 eq_refl W1 W2)
      as (wa & wb & fa & fb & Hoa & Hob & Hfa & Hfb & _ & _ & Hdiff).
    apply Hdiff.
    vm_compute in Hoa, Hob. injection Hoa as <-. injection Hob as <-.
    vm_compute in Hfa, Hfb. injection Hfa as <-. injection Hfb as <-.
    vm_compute. reflexivity.
  - destruct (equality_asserts_identical_binding_then_invokes_it true
                std.forward_iterator_tag (LRef Int) std.ptrdiff_t _
                demo_machine 1%positive 2%positive _ _ 0 1 eq_refl W1 W2)
      as (wa & wb & fa & fb & Hoa & Hob & Hfa & Hfb & _ & _ & Hdiff).
    apply Hdiff.
    vm_compute in Hoa, Hob. injection Hoa as <-. injection Hob as <-.
    vm_compute in Hfa, Hfb. injection Hfa as <-. injection Hfb as <-.
    vm_compute. reflexivity.
Defined.

Lemma swap_exchanges_observable_behaviour_witness :
  exists m',
    friend_swap 1%positive 2%positive demo_machine = Ok (tt, m') /\
    held m' 1%positive = held demo_machine 2%positive /\
    held m' 2%positive = held demo_machine 1%positive /\
    wraps std.forward_iterator_tag (LRef Int) std.ptrdiff_t m' 1%positive
      (oversized_iterator numbers) 1 /\
    wraps std.forward_iterator_tag (LRef Int) std.ptrdiff_t m' 2%positive
      (forward_list_iterator numbers) 0.
Proof.
  destruct demo_machine_wraps as (W1 & W2 & _).
  destruct (swap_exchanges_observable_behaviour false std.forward_iterator_tag
              (LRef Int) std.ptrdiff_t demo_machine 1%positive 2%positive)
    as (m' & Hrun & H12 & H21 & Hw1 & Hw2 & _).
  - vm_compute. eexists. reflexivity.
  - vm_compute. eexists. reflexivity.
  - exists m'. split; [exact Hrun|]. split; [exact H12|]. split; [exact H21|].
    split; [by apply Hw1|by apply Hw2].
Defined.

Lemma pointer_machine_wraps :
  wraps std.bidirectional_iterator_tag (LRef Int) std.ptrdiff_t pointer_machine
    1%positive (int_pointer numbers) 2.
Proof.
  eexists _, _. split; [vm_compute; reflexivity|].
  split; vm_compute; reflexivity.
Qed.


(** * The further properties at concrete inputs *)

Lemma erasure_at_a_base_category_witness :
  is_built (any_iterator_ctor 16 convertible_demo Int std.forward_iterator_tag
              (LRef Int) std.ptrdiff_t (int_pointer numbers)) = true.
Proof.
  apply (@erasure_at_a_base_category nat Z 16 convertible_demo Int
           std.forward_iterator_tag std.random_access_iterator_tag
           (LRef Int) std.ptrdiff_t (int_pointer numbers)).
  - vm_compute. reflexivity.
  - discriminate.
  - vm_compute. reflexivity.
Defined.

Lemma comparison_changes_nothing_witness :
  exists ne m',
    operator_ne nat Z false std.forward_iterator_tag (LRef Int) std.ptrdiff_t
      = Built ne /\
    ne 1%positive 3%positive demo_machine = Ok (true, m') /\
    m' = demo_machine.
Proof.
  eexists _, _. split; [reflexivity|]. split; [vm_compute; reflexivity|].
  eapply (comparison_changes_nothing false std.forward_iterator_tag (LRef Int)
            std.ptrdiff_t _ 1%positive 3%positive demo_machine true).
  - right. reflexivity.
  - vm_compute. reflexivity.
Defined.

Lemma equality_assertion_is_symmetric_witness :
  exists eq,
    operator_eq nat Z false std.forward_iterator_tag (LRef Int) std.ptrdiff_t
      = Built eq /\
    eq 1%positive 2%positive demo_machine = AssertionFailed /\
    eq 2%positive 1%positive demo_machine = AssertionFailed.
Proof.
  eexists. split; [reflexivity|]. split; [vm_compute; reflexivity|].
  apply (equality_assertion_is_symmetric false std.forward_iterator_tag (LRef Int)
           std.ptrdiff_t _ 1%positive 2%positive demo_machine eq_refl).
  - vm_compute. eexists. reflexivity.
  - vm_compute. eexists. reflexivity.
  - vm_compute. reflexivity.
Defined.

Lemma swap_is_a_symmetric_involution_witness :
  (exists m', friend_swap 1%positive 2%positive demo_machine = Ok (tt, m') /\
              friend_swap 1%positive 2%positive m' = Ok (tt, demo_machine)) /\
  friend_swap 1%positive 1%positive demo_machine = Ok (tt, demo_machine) /\
  friend_swap 1%positive 7%positive demo_machine = Undefined.
Proof.
  split; [|split].
  - destruct (swap_is_a_symmetric_involution demo_machine 1%positive 2%positive)
      as (Hinv & _).
    apply Hinv; vm_compute; eexists; reflexivity.
  - destruct (swap_is_a_symmetric_involution demo_machine 1%positive 1%positive)
      as (_ & _ & _ & Hself & _).
    apply Hself. vm_compute. eexists. reflexivity.
  - destruct (swap_is_a_symmetric_involution demo_machine 1%positive 7%positive)
      as (_ & _ & _ & _ & Hmissing).
    apply Hmissing. right. vm_compute. reflexivity.
Defined.

Lemma increment_then_decrement_restores_witness :
  exists inc dec m1,
    operator_inc nat Z std.bidirectional_iterator_tag (LRef Int) std.ptrdiff_t
      = Built inc /\
    operator_dec nat Z std.bidirectional_iterator_tag (LRef Int) std.ptrdiff_t
      = Built dec /\
    inc 1%positive pointer_machine = Ok (1%positive, m1) /\
    dec 1%positive m1 = Ok (1%positive, pointer_machine).
Proof.
  eexists _, _.
  destruct (increment_then_decrement_restores std.bidirectional_iterator_tag
              (LRef Int) std.ptrdiff_t _ _ pointer_machine 1%positive
              (int_pointer numbers) 2 3 eq_refl eq_refl pointer_machine_wraps
              eq_refl eq_refl) as (m1 & Hinc & _ & Hdec).
  exists m1. split; [reflexivity|]. split; [reflexivity|].
  split; [exact Hinc|exact Hdec].
Defined.

Lemma dereference_of_a_const_indirection_is_pure_witness :
  exists star,
    operator_star nat Z std.forward_iterator_tag (LRef Int) std.ptrdiff_t
      = Built star /\
    star 2%positive demo_machine = Ok (20%Z, demo_machine).
Proof.
  destruct demo_machine_wraps as (_ & W2 & _).
  eexists. split; [reflexivity|].
  apply (dereference_of_a_const_indirection_is_pure std.forward_iterator_tag
           (LRef Int) std.ptrdiff_t _ demo_machine 2%positive
           (oversized_iterator numbers) 1 20%Z eq_refl W2 eq_refl eq_refl).
Defined.

Lemma operations_leave_other_wrappers_alone_witness :
  exists inc m',
    operator_inc nat Z std.forward_iterator_tag (LRef Int) std.ptrdiff_t
      = Built inc /\
    inc 2%positive demo_machine = Ok (2%positive, m') /\
    held m' 1%positive = held demo_machine 1%positive /\
    placement m' 1%positive = placement demo_machine 1%positive.
Proof.
  eexists _, _. split; [reflexivity|]. split; [vm_compute; reflexivity|].
  destruct (@operations_leave_other_wrappers_alone nat Z
              std.forward_iterator_tag (LRef Int) std.ptrdiff_t
              2%positive 1%positive demo_machine) as (Hmut & _).
  - discriminate.
  - intros q Hq. vm_compute in Hq. discriminate Hq.
  - eapply Hmut; [left; reflexivity|]. vm_compute. reflexivity.
Defined.
